(** * vscode-npmx: version-upgrade resolution engine

    A shallow embedding of [utils/semver] ([parseSemverTuple], [compare],
    [getUpgradeOptions]), of the packument normalisation of
    [utils/api/package] and of the memoising registry cache, with the
    properties the specification states about them.

    Conventions.
    - A JavaScript string is a [string]; the code only looks for the
      ASCII characters [0-9], [.] and [-], so working on bytes or on
      UTF-16 code units makes no difference.
    - A JavaScript number is a [number]: an integer-valued double
      ([Fin z]), an infinity or NaN.  [Number] applied to a run of decimal
      digits rounds to the nearest double, ties to even.
    - [undefined] is [None]; an absent object property is [None].
    - A JavaScript object used as a dictionary is a [gmap string _] of
      its own properties; a read [o[key]] with a computed key also finds
      what [Object.prototype] holds ([Package.get_property]).
    - A function that can throw returns an [option] or an [outcome]; the
      theorems show where it does not. *)

From Stdlib Require Import ZArith Ascii String List Lia Bool.
From stdpp Require Import gmap strings list fin_maps.

#[local] Open Scope Z_scope.

(** ** JavaScript numbers, as far as the code uses them *)

Inductive number : Type :=
| Fin (z : Z)
| PosInf
| NegInf
| NaN.

Definition number_eq_dec (a b : number) : {a = b} + {a <> b}.
Proof. decide equality. apply Z.eq_dec. Defined.

(** Rounding of a non-negative integer to binary64: 53 bits of mantissa,
    round to nearest, ties to even, overflow to [Infinity]. *)
Definition round_double (n : Z) : number :=
  if n <? 2 ^ 53 then Fin n
  else
    let e := Z.log2 n - 52 in
    let q := n / 2 ^ e in
    let r := n mod 2 ^ e in
    let half := 2 ^ (e - 1) in
    let q' := if r <? half then q
              else if half <? r then q + 1
              else if Z.even q then q else q + 1 in
    let v := q' * 2 ^ e in
    if 2 ^ 1024 <=? v then PosInf else Fin v.

Definition round_signed (z : Z) : number :=
  if z <? 0 then
    match round_double (- z) with
    | Fin v => Fin (- v)
    | PosInf => NegInf
    | other => other
    end
  else round_double z.

(** [a === b] on numbers. *)
Definition js_strict_eq (a b : number) : bool :=
  match a, b with
  | Fin x, Fin y => x =? y
  | PosInf, PosInf => true
  | NegInf, NegInf => true
  | _, _ => false
  end.

(** [a > b] on numbers. *)
Definition js_gt (a b : number) : bool :=
  match a, b with
  | Fin x, Fin y => y <? x
  | PosInf, Fin _ => true
  | PosInf, NegInf => true
  | Fin _, NegInf => true
  | _, _ => false
  end.

(** [a < b] on numbers. *)
Definition js_lt (a b : number) : bool := js_gt b a.

(** [a - b] on numbers. *)
Definition js_sub (a b : number) : number :=
  match a, b with
  | Fin x, Fin y => round_signed (x - y)
  | NaN, _ | _, NaN => NaN
  | PosInf, PosInf => NaN
  | NegInf, NegInf => NaN
  | PosInf, _ => PosInf
  | NegInf, _ => NegInf
  | Fin _, PosInf => NegInf
  | Fin _, NegInf => PosInf
  end.

(** The values [Number] yields on a run of digits: a non-negative
    integer or [Infinity]. *)
Definition nonneg (a : number) : Prop :=
  match a with
  | Fin z => 0 <= z
  | PosInf => True
  | _ => False
  end.

(** [a < b] as a proposition. *)
Definition num_lt (a b : number) : Prop := js_lt a b = true.


(** ** utils/semver *)

Module Semver.

#[local] Open Scope string_scope.

(** [\d] of the regular expression. *)
Definition is_digit (c : ascii) : bool :=
  let n := nat_of_ascii c in
  (Nat.leb 48 n) && (Nat.leb n 57).

Definition digit_value (c : ascii) : Z := Z.of_nat (nat_of_ascii c) - 48.

(** The longest run of digits at the start of the string, and what
    follows it. *)
Fixpoint span_digits (s : string) : string * string :=
  match s with
  | String c rest =>
      if is_digit c then
        let '(ds, tl) := span_digits rest in (String c ds, tl)
      else (EmptyString, s)
  | EmptyString => (EmptyString, EmptyString)
  end.

(** [(\d+)], greedy; [None] when the string starts with no digit.  No
    backtracking can change the outcome: what follows the group in the
    pattern is [\.] or the end of the pattern. *)
Definition digits1 (s : string) : option (string * string) :=
  match span_digits s with
  | (EmptyString, _) => None
  | (ds, tl) => Some (ds, tl)
  end.

(** [\.] *)
Definition dot (s : string) : option string :=
  match s with
  | String "." rest => Some rest
  | _ => None
  end.

(** The mathematical value of a run of decimal digits. *)
Fixpoint decimal_value_from (acc : Z) (ds : string) : Z :=
  match ds with
  | EmptyString => acc
  | String c rest => decimal_value_from (10 * acc + digit_value c) rest
  end.

Definition decimal_value (ds : string) : Z := decimal_value_from 0 ds.

(** [Number(match[i])] on a captured run of digits: the double nearest
    to the run's decimal value, as the engines compute it. *)
Definition Number (ds : string) : number := round_double (decimal_value ds).

Definition SemverTuple : Type := number * number * number.

(** [version.match(/^(\d+)\.(\d+)\.(\d+)/)]: the three captured groups. *)
Definition match_semver (version : string) : option (string * string * string) :=
  match digits1 version with
  | None => None
  | Some (g1, s1) =>
      match dot s1 with
      | None => None
      | Some s2 =>
          match digits1 s2 with
          | None => None
          | Some (g2, s3) =>
              match dot s3 with
              | None => None
              | Some s4 =>
                  match digits1 s4 with
                  | None => None
                  | Some (g3, _) => Some (g1, g2, g3)
                  end
              end
          end
      end
  end.

Definition parseSemverTuple (version : string) : option SemverTuple :=
  match match_semver version with
  | None => None
  | Some (g1, g2, g3) => Some (Number g1, Number g2, Number g3)
  end.

Definition nonneg_tuple (t : SemverTuple) : Prop :=
  let '(a, b, c) := t in nonneg a /\ nonneg b /\ nonneg c.

(** Lexicographic order of tuples, major first, on the order [<] of
    numbers. *)
Definition tuple_lt (t1 t2 : SemverTuple) : Prop :=
  let '(a0, a1, a2) := t1 in
  let '(b0, b1, b2) := t2 in
  num_lt a0 b0 \/ (a0 = b0 /\ (num_lt a1 b1 \/ (a1 = b1 /\ num_lt a2 b2))).

Definition tuple_le (t1 t2 : SemverTuple) : Prop := tuple_lt t1 t2 \/ t1 = t2.

(** What the pattern [^\d+\.\d+\.\d+] says of a string, stated on its
    own: a non-empty run of digits, a dot, a second run, a dot, a third
    run, and anything after. *)
Fixpoint all_digits (s : string) : bool :=
  match s with
  | EmptyString => true
  | String c rest => is_digit c && all_digits rest
  end.

Definition digit_run (s : string) : Prop := s <> "" /\ all_digits s = true.

Definition starts_with_digit (s : string) : bool :=
  match s with
  | String c _ => is_digit c
  | EmptyString => false
  end.

Definition matches_semver_prefix (s : string) : Prop :=
  exists d1 d2 d3 rest,
    digit_run d1 /\ digit_run d2 /\ digit_run d3 /\
    s = String.append d1 (String "." (String.append d2 (String "." (String.append d3 rest)))).

(** [compare]: [parseSemverTuple(v)!] is dereferenced at once, so an
    unparseable argument raises a [TypeError], here [None]. *)
Definition compare (v1 v2 : string) : option number :=
  match parseSemverTuple v1, parseSemverTuple v2 with
  | Some (a0, a1, a2), Some (b0, b1, b2) =>
      if negb (js_strict_eq a0 b0) then Some (js_sub a0 b0)
      else if negb (js_strict_eq a1 b1) then Some (js_sub a1 b1)
      else Some (js_sub a2 b2)
  | _, _ => None
  end.

(** [s.includes(needle)] *)
Fixpoint includes (needle s : string) : bool :=
  if String.prefix needle s then true
  else match s with
       | EmptyString => false
       | String _ rest => includes needle rest
       end.

(** Truthiness of a [string | undefined]. *)
Definition truthy (o : option string) : bool :=
  match o with
  | Some s => negb (s =? "")
  | None => false
  end.

Record VersionUpgradeOptions : Type := mkOptions {
  major : option string;
  minor : option string;
  patch : option string;
  prerelease : option string;
  latest : string
}.

(** The three running maxima of the loop. *)
Record Maxima : Type := mkMaxima {
  maxPatch : option string;
  maxMinor : option string;
  maxMajor : option string
}.

(** [if (!max || compare(ver, max) > 0) max = ver] *)
Definition update_max (ver : string) (max : option string) : option (option string) :=
  match max with
  | Some m =>
      if negb (truthy max) then Some (Some ver)
      else match compare ver m with
           | Some c => Some (if js_gt c (Fin 0) then Some ver else max)
           | None => None
           end
  | None => Some (Some ver)
  end.

Definition in_patch_tier (cur v : SemverTuple) : bool :=
  let '(curMajor, curMinor, curPatch) := cur in
  let '(vMajor, vMinor, vPatch) := v in
  js_strict_eq vMajor curMajor && js_strict_eq vMinor curMinor && js_gt vPatch curPatch.

Definition in_minor_tier (cur v : SemverTuple) : bool :=
  let '(curMajor, curMinor, _) := cur in
  let '(vMajor, vMinor, _) := v in
  js_strict_eq vMajor curMajor && js_gt vMinor curMinor.

Definition in_major_tier (cur v : SemverTuple) : bool :=
  let '(curMajor, _, _) := cur in
  let '(vMajor, _, _) := v in
  js_gt vMajor curMajor.

(** One iteration of [for (const ver of allVersions)]; [None] when the
    body throws. *)
Definition scan_step (cur : SemverTuple) (st : Maxima) (ver : string) : option Maxima :=
  match parseSemverTuple ver with
  | None => Some st
  | Some tuple =>
      if includes "-" ver then Some st
      else
        match (if in_patch_tier cur tuple then update_max ver (maxPatch st)
               else Some (maxPatch st)) with
        | None => None
        | Some p =>
            match (if in_minor_tier cur tuple then update_max ver (maxMinor st)
                   else Some (maxMinor st)) with
            | None => None
            | Some mi =>
                match (if in_major_tier cur tuple then update_max ver (maxMajor st)
                       else Some (maxMajor st)) with
                | None => None
                | Some ma => Some (mkMaxima p mi ma)
                end
            end
        end
  end.

Fixpoint scan (cur : SemverTuple) (st : Maxima) (allVersions : list string) : option Maxima :=
  match allVersions with
  | [] => Some st
  | ver :: rest =>
      match scan_step cur st ver with
      | Some st' => scan cur st' rest
      | None => None
      end
  end.

(** [if (max && max !== latestTag) result.tier = max] *)
Definition surfaced (max : option string) (latestTag : string) : option string :=
  match max with
  | Some m => if truthy max && negb (m =? latestTag) then Some m else None
  | None => None
  end.

Definition getUpgradeOptions (current : string) (allVersions : list string)
    (latestTag : string) : option VersionUpgradeOptions :=
  match parseSemverTuple current with
  | None => Some (mkOptions None None None None latestTag)
  | Some currentTuple =>
      match scan currentTuple (mkMaxima None None None) allVersions with
      | None => None
      | Some st =>
          let tiers := negb (latestTag =? current) in
          Some {|
            major := if tiers then surfaced (maxMajor st) latestTag else None;
            minor := if tiers then surfaced (maxMinor st) latestTag else None;
            patch := if tiers then surfaced (maxPatch st) latestTag else None;
            prerelease :=
              if includes "-" latestTag && negb (includes "-" current)
              then Some latestTag else None;
            latest := latestTag
          |}
      end
  end.

(** A candidate of a tier: it has a tuple, it carries no prerelease
    marker, and the tier's test accepts the tuple. *)
Definition eligible (tier : SemverTuple -> SemverTuple -> bool)
    (cur : SemverTuple) (ver : string) (t : SemverTuple) : Prop :=
  parseSemverTuple ver = Some t /\ includes "-" ver = false /\ tier cur t = true.

(** [m] is the first of the candidates of [tier] in [seen] whose tuple is
    the greatest: every candidate before it is strictly smaller, none
    after it is larger. *)
Definition first_max (tier : SemverTuple -> SemverTuple -> bool)
    (cur : SemverTuple) (seen : list string) (m : option string) : Prop :=
  match m with
  | None => forall w t, In w seen -> ~ eligible tier cur w t
  | Some v =>
      exists tv l1 l2,
        seen = (l1 ++ v :: l2)%list /\ eligible tier cur v tv /\
        (forall w tw, In w l1 -> eligible tier cur w tw -> tuple_lt tw tv) /\
        (forall w tw, In w l2 -> eligible tier cur w tw -> tuple_le tw tv)
  end.

(** The reduction the specification words: the last of the candidates
    whose tuple is the greatest. *)
Definition last_max (tier : SemverTuple -> SemverTuple -> bool)
    (cur : SemverTuple) (seen : list string) (m : option string) : Prop :=
  match m with
  | None => forall w t, In w seen -> ~ eligible tier cur w t
  | Some v =>
      exists tv l1 l2,
        seen = (l1 ++ v :: l2)%list /\ eligible tier cur v tv /\
        (forall w tw, In w l1 -> eligible tier cur w tw -> tuple_le tw tv) /\
        (forall w tw, In w l2 -> eligible tier cur w tw -> tuple_lt tw tv)
  end.

Definition scan_inv (cur : SemverTuple) (seen : list string) (st : Maxima) : Prop :=
  first_max in_patch_tier cur seen (maxPatch st) /\
  first_max in_minor_tier cur seen (maxMinor st) /\
  first_max in_major_tier cur seen (maxMajor st).

(** What holds of a populated tier field of the result. *)
Definition tier_field (tier : SemverTuple -> SemverTuple -> bool)
    (current : string) (allVersions : list string) (latestTag : string)
    (field : option string) : Prop :=
  match field with
  | None => True
  | Some v =>
      exists cur tv,
        parseSemverTuple current = Some cur /\
        parseSemverTuple v = Some tv /\
        tier cur tv = true /\ tuple_lt cur tv /\
        In v allVersions /\ includes "-" v = false /\
        v <> latestTag /\ latestTag <> current
  end.

(** The invariant the specification states of the optional fields: each
    populated one differs from [latest]. *)
Definition distinct_from_latest (r : VersionUpgradeOptions) : Prop :=
  forall v, In (Some v) [patch r; minor r; major r; prerelease r] -> v <> latest r.

(** The difference of the first components that differ, major first, and
    of the patch components when none does. *)
Definition tuple_difference (t1 t2 : SemverTuple) : number :=
  let '(a0, a1, a2) := t1 in
  let '(b0, b1, b2) := t2 in
  if number_eq_dec a0 b0 then
    if number_eq_dec a1 b1 then js_sub a2 b2 else js_sub a1 b1
  else js_sub a0 b0.

(** The same on integers. *)
Definition first_difference (x0 x1 x2 y0 y1 y2 : Z) : Z :=
  if (x0 =? y0)%Z then (if (x1 =? y1)%Z then x2 - y2 else x1 - y1) else x0 - y0.

(** The two [continue] guards of the loop: a version takes part in the
    scan when it has a tuple and no prerelease marker. *)
Definition is_candidate (ver : string) : bool :=
  match parseSemverTuple ver with
  | Some _ => negb (includes "-" ver)
  | None => false
  end.

End Semver.

(** ** utils/api/package: normalisation of a fetched packument *)

Module Package.

(** [@npm/types], the fields the code reads. *)
Record Dist : Type := mkDist {
  attestations : option unit
}.

Record PackumentVersion : Type := mkPackumentVersion {
  dist : Dist;
  pv_deprecated : option string
}.

(** [dist-tags] keeps the order of [Object.entries]. *)
Record Packument : Type := mkPackument {
  pkg_versions : gmap string PackumentVersion;
  pkg_time : gmap string string;
  pkg_dist_tags : list (string * string)
}.

Record ResolvedPackumentVersion : Type := mkResolvedVersion {
  version : string;
  tag : option string;
  hasProvenance : bool;
  deprecated : option string
}.

Record ResolvedPackument : Type := mkResolvedPackument {
  versions : gmap string ResolvedPackumentVersion
}.

(** What the body of the [async] function does once the packument is
    fetched: it returns, or a [TypeError] is thrown. *)
Inductive outcome (A : Type) : Type :=
| Returned (a : A)
| ThrewTypeError.

Arguments Returned {A} a.
Arguments ThrewTypeError {A}.

(** The members every ordinary object inherits from [Object.prototype]:
    eleven methods, and the accessor [__proto__]. *)
Definition prototype_methods : list string :=
  ["constructor"; "hasOwnProperty"; "isPrototypeOf"; "propertyIsEnumerable";
   "toLocaleString"; "toString"; "valueOf";
   "__defineGetter__"; "__defineSetter__"; "__lookupGetter__"; "__lookupSetter__"].

Definition is_method (key : string) : bool :=
  existsb (String.eqb key) prototype_methods.

(** The keys that read as an object on any ordinary object. *)
Definition inherited_object (key : string) : bool :=
  is_method key || String.eqb key "__proto__".

(** What the code can change of the global objects: the property [tag]
    of [Object.prototype], and the property [tag] of its methods. *)
Record Realm : Type := mkRealm {
  proto_tag : option string;
  method_tags : gmap string string
}.

Definition initial_realm : Realm := mkRealm None ∅.

(** What [o[key]] evaluates to, on an ordinary object [o] whose own
    properties are a map of values of type [A]. *)
Inductive property (A : Type) : Type :=
| Own (a : A)
| Method (name : string)
| ObjectPrototype
| ProtoTag (s : string)
| Undefined.

Arguments Own {A} a.
Arguments Method {A} name.
Arguments ObjectPrototype {A}.
Arguments ProtoTag {A} s.
Arguments Undefined {A}.

(** [o[key]]: the own property, else the member inherited from
    [Object.prototype]. *)
Definition get_property {A : Type} (g : Realm) (own : gmap string A) (key : string)
    : property A :=
  match own !! key with
  | Some a => Own a
  | None =>
      if is_method key then Method key
      else if String.eqb key "__proto__" then ObjectPrototype
      else if String.eqb key "tag" then
        match proto_tag g with
        | Some s => ProtoTag s
        | None => Undefined
        end
      else Undefined
  end.

(** [pkg.time[v]] as a condition: a non-empty string or an object. *)
Definition has_time (g : Realm) (pkg : Packument) (v : string) : bool :=
  match get_property g (pkg_time pkg) v with
  | Own t => negb (String.eqb t "")
  | Method _ => true
  | ObjectPrototype => true
  | ProtoTag s => negb (String.eqb s "")
  | Undefined => false
  end.

(** The entry built for a version that passes the filter. *)
Definition resolve_version (v : string) (pv : PackumentVersion) : ResolvedPackumentVersion :=
  {| version := v;
     tag := None;
     hasProvenance := match attestations (dist pv) with Some _ => true | None => false end;
     deprecated := pv_deprecated pv |}.

(** [Object.fromEntries(Object.keys(pkg.versions).filter(...).map(...))]:
    the own keys of [pkg.versions] for which [pkg.time[v]] is truthy, each
    with its entry, as own properties of a new object. *)
Definition resolvedVersions (g : Realm) (pkg : Packument)
    : gmap string ResolvedPackumentVersion :=
  map_imap (fun v pv => if has_time g pkg v then Some (resolve_version v pv) else None)
           (pkg_versions pkg).

Definition set_tag (r : ResolvedPackumentVersion) (t : string) : ResolvedPackumentVersion :=
  {| version := version r; tag := Some t;
     hasProvenance := hasProvenance r; deprecated := deprecated r |}.

(** [resolvedVersions[version].tag = tag], for each entry of [dist-tags]
    in turn, in a module (strict code).  The assignment lands on the
    entry, on an inherited method, or on [Object.prototype] itself; on
    [undefined] and on a string it throws. *)
Fixpoint attach_tags (tags : list (string * string)) (g : Realm)
    (rv : gmap string ResolvedPackumentVersion)
    : outcome (gmap string ResolvedPackumentVersion) * Realm :=
  match tags with
  | [] => (Returned rv, g)
  | (t, v) :: rest =>
      match get_property g rv v with
      | Own r => attach_tags rest g (<[v := set_tag r t]> rv)
      | Method name =>
          attach_tags rest (mkRealm (proto_tag g) (<[name := t]> (method_tags g))) rv
      | ObjectPrototype => attach_tags rest (mkRealm (Some t) (method_tags g)) rv
      | ProtoTag _ => (ThrewTypeError, g)
      | Undefined => (ThrewTypeError, g)
      end
  end.

(** The body of the function after the fetch, with the global objects
    before and after. *)
Definition normalize (g : Realm) (pkg : Packument) : outcome ResolvedPackument * Realm :=
  match attach_tags (pkg_dist_tags pkg) g (resolvedVersions g pkg) with
  | (Returned rv, g') => (Returned {| versions := rv |}, g')
  | (ThrewTypeError, g') => (ThrewTypeError, g')
  end.

(** [r.tag] as a reader of the entry gets it: the own property, else the
    one inherited from [Object.prototype]. *)
Definition read_tag (g : Realm) (r : ResolvedPackumentVersion) : option string :=
  match tag r with
  | Some t => Some t
  | None => proto_tag g
  end.

(** The tag that the loop over [dist-tags] leaves on version [v]: the
    one of the last entry that points at [v]. *)
Fixpoint last_tag_for (v : string) (tags : list (string * string)) : option string :=
  match tags with
  | [] => None
  | (t, v') :: rest =>
      match last_tag_for v rest with
      | Some t' => Some t'
      | None => if String.eqb v' v then Some t else None
      end
  end.

End Package.

(** ** utils/memoize: the registry metadata cache *)

Module Memoize.

Section Cache.

Context {V : Type}.

(** Modelled from the spec: [memoize] (utils/memoize) is not among the
    sources; a pending handle is identified by the rank of the fetch that
    created it. *)
Definition handle : Type := nat.

(** Modelled from the spec: an entry of the cache of [memoize] is a
    fetch in flight or a resolved value. *)
Inductive entry : Type :=
| Pending (h : handle)
| Resolved (v : V).

(** Modelled from the spec: what [get] of the cache of [memoize] hands
    back, a pending handle or the cached value. *)
Inductive answer : Type :=
| PendingHandle (h : handle)
| Value (v : V).

(** Modelled from the spec: the state of the cache of [memoize], the
    entries by name and the fetches initiated so far, oldest first. *)
Record cache : Type := mkCache {
  entries : gmap string entry;
  fetches : list string
}.

(** Modelled from the spec: the cache of [memoize] before any call. *)
Definition empty_cache : cache := mkCache ∅ [].

(** Modelled from the spec: [get] of the cache of [memoize].  A resolved
    name is answered from the cache, a pending one with the handle in
    flight, and any other name starts a fetch. *)
Definition get (name : string) (c : cache) : answer * cache :=
  match entries c !! name with
  | Some (Resolved v) => (Value v, c)
  | Some (Pending h) => (PendingHandle h, c)
  | None =>
      let h := length (fetches c) in
      (PendingHandle h,
       mkCache (<[name := Pending h]> (entries c)) (fetches c ++ [name]))
  end.

(** Modelled from the spec: completion of the fetch of [memoize] with
    handle [h]; success caches the value for good, failure leaves no
    entry behind. *)
Definition settle (name : string) (h : handle) (result : option V) (c : cache) : cache :=
  match entries c !! name with
  | Some (Pending h') =>
      if decide (h' = h) then
        match result with
        | Some v => mkCache (<[name := Resolved v]> (entries c)) (fetches c)
        | None => mkCache (delete name (entries c)) (fetches c)
        end
      else c
  | _ => c
  end.

(** Modelled from the spec: what can happen to the cache of [memoize],
    a call of [get] or the completion of a fetch. *)
Inductive event : Type :=
| Call (name : string)
| Settled (name : string) (h : handle) (result : option V).

(** Modelled from the spec: one event on the cache of [memoize]. *)
Definition step (c : cache) (ev : event) : cache :=
  match ev with
  | Call name => snd (get name c)
  | Settled name h result => settle name h result c
  end.

(** Modelled from the spec: a run of events on the cache of [memoize]. *)
Definition run (c : cache) (evs : list event) : cache := fold_left step evs c.

(** Modelled from the spec: the event completes the fetch of [memoize]
    with handle [h] for [name]. *)
Definition settles (name : string) (h : handle) (ev : event) : Prop :=
  match ev with
  | Settled name' h' _ => name' = name /\ h' = h
  | Call _ => False
  end.

End Cache.

Arguments entry : clear implicits.
Arguments answer : clear implicits.
Arguments cache : clear implicits.
Arguments event : clear implicits.

End Memoize.

(** ** providers: the upgrade items of a dependency

    The loop over [upgradeOrder] that [UpgradeGutterProvider._update] and
    [VersionCodeLensProvider.provideCodeLenses] share. *)

Module Providers.

Import Semver.

(** [keyof VersionUpgradeOptions] *)
Inductive UpgradeType : Type :=
| Latest
| Major
| Minor
| Patch
| Prerelease.

Definition upgradeLabels (ty : UpgradeType) : string :=
  match ty with
  | Latest => "latest"
  | Major => "major"
  | Minor => "minor"
  | Patch => "patch"
  | Prerelease => "pre"
  end.

Definition upgradeOrder : list UpgradeType := [Latest; Major; Minor; Patch; Prerelease].

(** [upgradeOptions[type]] *)
Definition option_of (o : VersionUpgradeOptions) (ty : UpgradeType) : option string :=
  match ty with
  | Latest => Some (latest o)
  | Major => major o
  | Minor => minor o
  | Patch => patch o
  | Prerelease => prerelease o
  end.

(** [{ type, targetVersion, newVersion }] *)
Record Item : Type := mkItem {
  type : UpgradeType;
  targetVersion : string;
  newVersion : string
}.

Section Items.

(** [utils/version] is not among the sources: the parsed specifier, its
    [semver] field, the update [{ ...parsed, semver }] and [formatVersion]
    are parameters. *)
Variable ParsedVersion : Type.
Variable semver : ParsedVersion -> string.
Variable with_semver : ParsedVersion -> string -> ParsedVersion.
Variable formatVersion : ParsedVersion -> string.

(** [type === 'latest' ? (upgradeOptions.latest !== parsed.semver ?
    upgradeOptions.latest : undefined) : upgradeOptions[type]] *)
Definition target_of (parsed : ParsedVersion) (o : VersionUpgradeOptions)
    (ty : UpgradeType) : option string :=
  match ty with
  | Latest => if negb (String.eqb (latest o) (semver parsed)) then Some (latest o) else None
  | _ => option_of o ty
  end.

(** One turn of the loop: [if (!targetVersion) continue], else the item
    pushed. *)
Definition item_for (parsed : ParsedVersion) (o : VersionUpgradeOptions)
    (ty : UpgradeType) : option Item :=
  match target_of parsed o ty with
  | Some tv =>
      if truthy (Some tv)
      then Some {| type := ty; targetVersion := tv;
                   newVersion := formatVersion (with_semver parsed tv) |}
      else None
  | None => None
  end.

(** [for (const type of upgradeOrder)] *)
Definition collect_items (parsed : ParsedVersion) (o : VersionUpgradeOptions) : list Item :=
  omap (item_for parsed o) upgradeOrder.

(** [getUpgradeOptions(parsed.semver, allVersions, latest)] followed by the
    loop; [None] when [getUpgradeOptions] throws. *)
Definition upgrade_items (parsed : ParsedVersion) (allVersions : list string)
    (latestTag : string) : option (list Item) :=
  match getUpgradeOptions (semver parsed) allVersions latestTag with
  | Some o => Some (collect_items parsed o)
  | None => None
  end.

End Items.

End Providers.

(* ================================================================= *)
(** * Properties *)

(** ** Numbers *)

Lemma round_double_pos n :
  0 < n ->
  (exists v, round_double n = Fin v /\ 0 < v) \/ round_double n = PosInf.
Proof.
  intros Hn. unfold round_double.
  destruct (Z.ltb_spec n (2 ^ 53)) as [Hs | Hb].
  - left. eauto.
  - set (e := Z.log2 n - 52).
    assert (He : 0 <= e).
    { assert (53 <= Z.log2 n) by (apply Z.log2_le_pow2; lia). lia. }
    assert (Hpe : 0 < 2 ^ e) by (apply Z.pow_pos_nonneg; lia).
    assert (Hq : 1 <= n / 2 ^ e).
    { apply Z.div_le_lower_bound; [lia |].
      assert (2 ^ Z.log2 n <= n) by (apply Z.log2_spec; lia).
      assert (2 ^ e <= 2 ^ Z.log2 n) by (apply Z.pow_le_mono_r; lia).
      lia. }
    set (q := n / 2 ^ e) in *.
    set (q' := if n mod 2 ^ e <? 2 ^ (e - 1) then q
               else if 2 ^ (e - 1) <? n mod 2 ^ e then q + 1
               else if Z.even q then q else q + 1).
    assert (Hq' : 1 <= q').
    { subst q'. repeat match goal with |- context [if ?b then _ else _] => destruct b end; lia. }
    destruct (2 ^ 1024 <=? q' * 2 ^ e); [now right |].
    left. exists (q' * 2 ^ e). split; [reflexivity | nia].
Qed.

Lemma round_double_zero : round_double 0 = Fin 0.
Proof. reflexivity. Qed.

Lemma round_double_nonneg n : 0 <= n -> nonneg (round_double n).
Proof.
  intros Hn. destruct (Z.eq_dec n 0) as [-> | Hne].
  - rewrite round_double_zero. simpl. lia.
  - destruct (round_double_pos n) as [(v & -> & Hv) | ->]; simpl; lia.
Qed.

(** The sign of a rounded difference is the sign of the difference. *)
Lemma round_signed_sign z :
  js_gt (round_signed z) (Fin 0) = (0 <? z) /\
  js_gt (Fin 0) (round_signed z) = (z <? 0) /\
  (round_signed z = Fin 0 <-> z = 0) /\
  round_signed z <> NaN.
Proof.
  unfold round_signed.
  destruct (Z.ltb_spec z 0) as [Hneg | Hpos].
  - destruct (round_double_pos (- z)) as [(v & -> & Hv) | ->]; [lia | |]; simpl.
    + repeat split; try lia; try congruence.
      * intros [= ?]. lia.
    + repeat split; try lia; try congruence. 
  - destruct (Z.eq_dec z 0) as [-> | Hne].
    + rewrite round_double_zero. simpl. repeat split; congruence.
    + destruct (round_double_pos z) as [(v & -> & Hv) | ->]; [lia | |]; simpl.
      * repeat split; try lia; try congruence.
        intros [= ?]. lia.
      * repeat split; try lia; try congruence.
Qed.

Lemma js_strict_eq_true a b : js_strict_eq a b = true -> a = b.
Proof.
  destruct a, b; simpl; try discriminate; try reflexivity.
  intros H. apply Z.eqb_eq in H. now subst.
Qed.

Lemma js_strict_eq_refl a : nonneg a -> js_strict_eq a a = true.
Proof. destruct a; simpl; try tauto. intros _. apply Z.eqb_refl. Qed.

Lemma js_strict_eq_false a b : js_strict_eq a b = false -> a <> b \/ a = NaN.
Proof.
  destruct a, b; simpl; try discriminate; try (left; congruence); try (right; reflexivity).
  intros H. apply Z.eqb_neq in H. left. congruence.
Qed.

(** Subtraction of two parsed components has the sign of their order. *)
Lemma sub_sign a b :
  nonneg a -> nonneg b ->
  js_gt (js_sub a b) (Fin 0) = js_gt a b /\ js_gt (Fin 0) (js_sub a b) = js_gt b a.
Proof.
  destruct a as [x | | |], b as [y | | |]; cbn [nonneg js_sub]; try tauto; intros _ _;
    try (split; reflexivity).
  destruct (round_signed_sign (x - y)) as (-> & -> & _).
  cbn [js_gt]. split; apply Bool.eq_true_iff_eq; rewrite !Z.ltb_lt; lia.
Qed.

Lemma sub_zero a b :
  nonneg a -> nonneg b ->
  (js_sub a b = Fin 0 <-> a = b /\ a <> PosInf) /\
  (js_sub a b = NaN <-> a = PosInf /\ b = PosInf).
Proof.
  destruct a as [x | | |], b as [y | | |]; cbn [nonneg js_sub]; try tauto; intros _ _.
  - destruct (round_signed_sign (x - y)) as (_ & _ & Hz & Hn).
    split; split.
    + intros H. apply Hz in H. split; [f_equal; lia | discriminate].
    + intros [[= ->] _]. apply Hz. lia.
    + intros H. contradiction.
    + intros [[=] _].
  - repeat split; try discriminate; intros [? ?]; discriminate.
  - repeat split; try discriminate; intros [? ?]; discriminate.
  - repeat split; try discriminate; intros [? ?]; try discriminate; congruence.
Qed.

Lemma num_lt_irrefl a : ~ num_lt a a.
Proof. unfold num_lt, js_lt. destruct a; simpl; try discriminate. rewrite Z.ltb_irrefl. discriminate. Qed.

Lemma num_lt_trans a b c : num_lt a b -> num_lt b c -> num_lt a c.
Proof.
  unfold num_lt, js_lt. destruct a, b, c; simpl; try discriminate; try reflexivity.
  intros H1 H2. apply Z.ltb_lt in H1, H2. apply Z.ltb_lt. lia.
Qed.

Lemma num_lt_total a b : nonneg a -> nonneg b -> num_lt a b \/ a = b \/ num_lt b a.
Proof.
  unfold num_lt, js_lt. destruct a as [x | | |], b as [y | | |]; simpl; try tauto; intros _ _.
  destruct (Z.lt_trichotomy x y) as [H | [H | H]].
  - left. apply Z.ltb_lt. lia.
  - right. left. now subst.
  - right. right. apply Z.ltb_lt. lia.
Qed.


(** ** utils/semver: worked examples *)

Import Semver.

Example parse_plain : parseSemverTuple "1.2.3" = Some (Fin 1, Fin 2, Fin 3).
Proof. reflexivity. Qed.

Example parse_suffix : parseSemverTuple "10.20.30-beta.1+build" = Some (Fin 10, Fin 20, Fin 30).
Proof. reflexivity. Qed.

Example parse_short : parseSemverTuple "1.2" = None.
Proof. reflexivity. Qed.

Example parse_prefixed : parseSemverTuple "^1.2.3" = None.
Proof. reflexivity. Qed.

Example compare_examples :
  compare "1.2.3" "1.2.4" = Some (Fin (-1)) /\
  compare "2.0.0" "1.9.9" = Some (Fin 1) /\
  compare "1.0.0" "1.0.0" = Some (Fin 0).
Proof. repeat split; vm_compute; reflexivity. Qed.

Example classify_at_latest :
  getUpgradeOptions "1.0.0" [] "1.0.0" = Some (mkOptions None None None None "1.0.0").
Proof. reflexivity. Qed.

Example classify_prerelease_latest :
  getUpgradeOptions "1.0.0" ["2.0.0-beta.1"] "2.0.0-beta.1"
  = Some (mkOptions None None None (Some "2.0.0-beta.1") "2.0.0-beta.1").
Proof. vm_compute. reflexivity. Qed.


(** ** [parseSemverTuple] *)

Section Parsing.

Lemma append_nil_l (b : string) : "" +:+ b = b.
Proof. reflexivity. Qed.

Lemma append_cons (x : ascii) (a b : string) : String x a +:+ b = String x (a +:+ b).
Proof. reflexivity. Qed.

Lemma append_assoc (a b c : string) : (a +:+ b) +:+ c = a +:+ (b +:+ c).
Proof.
  induction a as [| x a IH]; [reflexivity |].
  rewrite !append_cons. now rewrite IH.
Qed.

Lemma span_digits_sound s ds tl :
  span_digits s = (ds, tl) ->
  s = ds +:+ tl /\ all_digits ds = true /\ starts_with_digit tl = false.
Proof.
  revert ds tl. induction s as [| c s IH]; intros ds tl; simpl.
  - intros [= <- <-]. auto.
  - destruct (is_digit c) eqn:Hc.
    + destruct (span_digits s) as [ds' tl'] eqn:Hs. intros [= <- <-].
      destruct (IH ds' tl' eq_refl) as (-> & Hd & Ht).
      rewrite append_cons. simpl. rewrite Hc, Hd. auto.
    + intros [= <- <-]. simpl. auto.
Qed.

Lemma span_digits_app ds rest :
  all_digits ds = true -> starts_with_digit rest = false ->
  span_digits (ds +:+ rest) = (ds, rest).
Proof.
  intros Hd Hr. induction ds as [| c ds IH].
  - rewrite append_nil_l. destruct rest as [| c r]; [reflexivity |].
    simpl in *. now rewrite Hr.
  - rewrite append_cons. simpl in *.
    apply andb_true_iff in Hd as [Hc Hd]. rewrite Hc, (IH Hd). reflexivity.
Qed.

Lemma digits1_sound s ds tl :
  digits1 s = Some (ds, tl) ->
  s = ds +:+ tl /\ digit_run ds /\ starts_with_digit tl = false.
Proof.
  unfold digits1. destruct (span_digits s) as [d t] eqn:Hs.
  destruct (span_digits_sound _ _ _ Hs) as (-> & Hd & Ht).
  destruct d as [| c d]; [discriminate |]. intros [= <- <-].
  repeat split; auto; discriminate.
Qed.

Lemma digits1_app ds rest :
  digit_run ds -> starts_with_digit rest = false ->
  digits1 (ds +:+ rest) = Some (ds, rest).
Proof.
  intros [Hne Hd] Hr. unfold digits1. rewrite span_digits_app by assumption.
  destruct ds; [congruence | reflexivity].
Qed.

Lemma dot_sound s tl : dot s = Some tl -> s = String "." tl.
Proof.
  destruct s as [| c s]; simpl; [discriminate |].
  destruct c as [[] [] [] [] [] [] [] []]; simpl; try discriminate.
  now intros [= ->].
Qed.

Lemma match_semver_sound s g1 g2 g3 :
  match_semver s = Some (g1, g2, g3) ->
  exists rest,
    s = g1 +:+ String "." (g2 +:+ String "." (g3 +:+ rest)) /\
    digit_run g1 /\ digit_run g2 /\ digit_run g3 /\
    starts_with_digit rest = false.
Proof.
  unfold match_semver.
  destruct (digits1 s) as [[a s1] |] eqn:H1; [| discriminate].
  destruct (dot s1) as [s2 |] eqn:H2; [| discriminate].
  destruct (digits1 s2) as [[b s3] |] eqn:H3; [| discriminate].
  destruct (dot s3) as [s4 |] eqn:H4; [| discriminate].
  destruct (digits1 s4) as [[c s5] |] eqn:H5; [| discriminate].
  intros [= <- <- <-].
  apply digits1_sound in H1 as (-> & Ha & _).
  apply dot_sound in H2 as ->.
  apply digits1_sound in H3 as (-> & Hb & _).
  apply dot_sound in H4 as ->.
  apply digits1_sound in H5 as (-> & Hc & Hr).
  exists s5. auto.
Qed.

Lemma match_semver_complete d1 d2 d3 rest :
  digit_run d1 -> digit_run d2 -> digit_run d3 ->
  starts_with_digit rest = false ->
  match_semver (d1 +:+ String "." (d2 +:+ String "." (d3 +:+ rest)))
  = Some (d1, d2, d3).
Proof.
  intros H1 H2 H3 Hr. unfold match_semver.
  rewrite (digits1_app d1) by (assumption || reflexivity). simpl.
  rewrite (digits1_app d2) by (assumption || reflexivity). simpl.
  rewrite (digits1_app d3) by assumption. reflexivity.
Qed.

Lemma digit_run_app d more :
  digit_run d -> all_digits more = true -> digit_run (d +:+ more).
Proof.
  intros [Hne Hd] Hm. split.
  - destruct d; [congruence | discriminate].
  - clear Hne. induction d as [| c d IH]; [assumption |].
    rewrite append_cons. simpl in *.
    apply andb_true_iff in Hd as [-> Hd]. simpl. auto.
Qed.

(** The third run of the pattern need not be maximal in the string: the
    greedy group takes the digits that follow it as well. *)
Lemma matches_semver_prefix_maximal s :
  matches_semver_prefix s ->
  exists d1 d2 d3 rest,
    digit_run d1 /\ digit_run d2 /\ digit_run d3 /\
    starts_with_digit rest = false /\
    s = d1 +:+ String "." (d2 +:+ String "." (d3 +:+ rest)).
Proof.
  intros (d1 & d2 & d3 & rest & H1 & H2 & H3 & ->).
  destruct (span_digits rest) as [more tl] eqn:Hs.
  destruct (span_digits_sound _ _ _ Hs) as (-> & Hm & Ht).
  exists d1, d2, (d3 +:+ more), tl.
  split; [exact H1 |]. split; [exact H2 |].
  split; [now apply digit_run_app |]. split; [exact Ht |].
  now rewrite append_assoc.
Qed.

Lemma decimal_value_from_nonneg ds acc :
  all_digits ds = true -> 0 <= acc -> 0 <= decimal_value_from acc ds.
Proof.
  revert acc. induction ds as [| c ds IH]; intros acc Hd Hacc; simpl in *; [assumption |].
  apply andb_true_iff in Hd as [Hc Hd]. apply IH; [assumption |].
  unfold is_digit in Hc. apply andb_true_iff in Hc as [Hlo Hhi].
  apply Nat.leb_le in Hlo. unfold digit_value. lia.
Qed.

Lemma Number_nonneg ds : digit_run ds -> nonneg (Number ds).
Proof.
  intros [_ Hd]. apply round_double_nonneg.
  apply decimal_value_from_nonneg; [assumption | lia].
Qed.

Lemma Number_exact ds : decimal_value ds < 2 ^ 53 -> Number ds = Fin (decimal_value ds).
Proof.
  intros H. unfold Number, round_double.
  destruct (Z.ltb_spec (decimal_value ds) (2 ^ 53)); [reflexivity | lia].
Qed.

Lemma parseSemverTuple_nonneg s t : parseSemverTuple s = Some t -> nonneg_tuple t.
Proof.
  unfold parseSemverTuple.
  destruct (match_semver s) as [[[g1 g2] g3] |] eqn:Hm; [| discriminate].
  intros [= <-]. apply match_semver_sound in Hm as (rest & _ & H1 & H2 & H3 & _).
  repeat split; now apply Number_nonneg.
Qed.

Lemma parseSemverTuple_nonempty s t : parseSemverTuple s = Some t -> s <> "".
Proof. intros H ->. discriminate. Qed.

(** C5, as the claim states it, fails: a run of digits above [2 ^ 53]
    is rounded by [Number], so the triple is not that of the runs'
    integers. *)
Lemma C5_large_run_is_rounded :
  digit_run "9007199254740993" /\
  decimal_value "9007199254740993" = 9007199254740993 /\
  parseSemverTuple "9007199254740993.0.0" = Some (Fin 9007199254740992, Fin 0, Fin 0) /\
  parseSemverTuple "9007199254740993.0.0"
  <> Some (Fin (decimal_value "9007199254740993"), Fin (decimal_value "0"), Fin (decimal_value "0")).
Proof.
  split; [split; [discriminate | reflexivity] |].
  split; [reflexivity |].
  split; [vm_compute; reflexivity |].
  vm_compute. discriminate.
Qed.

(** C5 (amended): on a string that starts with three dot-separated runs
    of digits, [parseSemverTuple] returns the triple of [Number] of those
    runs, whatever follows the third run; [Number] of a run is the run's
    integer whenever that integer is below [2 ^ 53]; and the result is
    [null] exactly on the strings that do not start as the pattern
    [^\d+\.\d+\.\d+] requires. *)
Theorem C5_parseSemverTuple_spec :
  (forall d1 d2 d3 rest,
      digit_run d1 -> digit_run d2 -> digit_run d3 ->
      starts_with_digit rest = false ->
      parseSemverTuple (d1 +:+ String "." (d2 +:+ String "." (d3 +:+ rest)))
      = Some (Number d1, Number d2, Number d3)) /\
  (forall d, decimal_value d < 2 ^ 53 -> Number d = Fin (decimal_value d)) /\
  (forall s, parseSemverTuple s = None <-> ~ matches_semver_prefix s).
Proof.
  assert (Hparse : forall d1 d2 d3 rest,
             digit_run d1 -> digit_run d2 -> digit_run d3 ->
             starts_with_digit rest = false ->
             parseSemverTuple (d1 +:+ String "." (d2 +:+ String "." (d3 +:+ rest)))
             = Some (Number d1, Number d2, Number d3)).
  { intros d1 d2 d3 rest H1 H2 H3 Hr. unfold parseSemverTuple.
    now rewrite match_semver_complete. }
  split; [exact Hparse |]. split; [exact Number_exact |].
  intros s. split.
  - intros Hnone Hm.
    apply matches_semver_prefix_maximal in Hm
      as (d1 & d2 & d3 & rest & H1 & H2 & H3 & Hr & ->).
    rewrite Hparse in Hnone by assumption. discriminate.
  - intros Hno. unfold parseSemverTuple.
    destruct (match_semver s) as [[[g1 g2] g3] |] eqn:Hm; [| reflexivity].
    exfalso. apply Hno.
    apply match_semver_sound in Hm as (rest & -> & H1 & H2 & H3 & _).
    exists g1, g2, g3, rest. auto.
Qed.

End Parsing.

(** ** [compare] *)

Section Comparator.

Lemma component_differs a b :
  nonneg a -> nonneg b -> js_strict_eq a b = false ->
  a <> b /\
  (js_gt (js_sub a b) (Fin 0) = true <-> num_lt b a) /\
  (js_lt (js_sub a b) (Fin 0) = true <-> num_lt a b) /\
  js_sub a b <> Fin 0 /\ js_sub a b <> NaN.
Proof.
  intros Ha Hb Hne.
  assert (Hab : a <> b).
  { intros ->. rewrite js_strict_eq_refl in Hne by assumption. discriminate. }
  destruct (sub_sign a b Ha Hb) as [Hg Hl].
  destruct (sub_zero a b Ha Hb) as [Hz Hn].
  unfold num_lt, js_lt. rewrite Hg, Hl.
  split; [exact Hab |]. split; [tauto |]. split; [tauto |]. split.
  - intros H. apply Hz in H. tauto.
  - intros H. apply Hn in H as [-> ->]. congruence.
Qed.

Lemma component_any a b :
  nonneg a -> nonneg b ->
  (js_gt (js_sub a b) (Fin 0) = true <-> num_lt b a) /\
  (js_lt (js_sub a b) (Fin 0) = true <-> num_lt a b) /\
  (js_sub a b = Fin 0 \/ js_sub a b = NaN <-> a = b).
Proof.
  intros Ha Hb.
  destruct (sub_sign a b Ha Hb) as [Hg Hl].
  destruct (sub_zero a b Ha Hb) as [Hz Hn].
  unfold num_lt, js_lt. rewrite Hg, Hl.
  split; [tauto |]. split; [tauto |]. split.
  - intros [H | H]; [apply Hz in H; tauto | apply Hn in H as [-> ->]; reflexivity].
  - intros ->. destruct (number_eq_dec b PosInf) as [-> | Hfin].
    + right. apply Hn. auto.
    + left. apply Hz. auto.
Qed.

(** [compare] never throws on parseable strings, and its sign is that of
    the lexicographic order of the tuples. *)
Lemma compare_parsed v1 v2 t1 t2 :
  parseSemverTuple v1 = Some t1 -> parseSemverTuple v2 = Some t2 ->
  exists c,
    compare v1 v2 = Some c /\
    (js_lt c (Fin 0) = true <-> tuple_lt t1 t2) /\
    (js_gt c (Fin 0) = true <-> tuple_lt t2 t1) /\
    (c = Fin 0 \/ c = NaN <-> t1 = t2).
Proof.
  intros H1 H2. unfold compare. rewrite H1, H2.
  apply parseSemverTuple_nonneg in H1, H2.
  destruct t1 as [[a0 a1] a2], t2 as [[b0 b1] b2].
  destruct H1 as (Ha0 & Ha1 & Ha2), H2 as (Hb0 & Hb1 & Hb2).
  unfold tuple_lt.
  destruct (js_strict_eq a0 b0) eqn:E0; simpl.
  - apply js_strict_eq_true in E0 as ->.
    pose proof (num_lt_irrefl b0) as Hi0.
    destruct (js_strict_eq a1 b1) eqn:E1; simpl.
    + apply js_strict_eq_true in E1 as ->.
      pose proof (num_lt_irrefl b1) as Hi1.
      destruct (component_any a2 b2 Ha2 Hb2) as (Hg & Hl & Hz).
      eexists. split; [reflexivity |].
      rewrite Hg, Hl, Hz.
      split; [intuition congruence |]. split; [intuition congruence |].
      split; [intros ->; reflexivity | intros [= ->]; reflexivity].
    + destruct (component_differs a1 b1 Ha1 Hb1 E1) as (Hne & Hg & Hl & Hz & Hn).
      eexists. split; [reflexivity |].
      rewrite Hg, Hl.
      split; [intuition congruence |]. split; [intuition congruence |].
      split; [intros [? | ?]; congruence | intros [= ? ?]; congruence].
  - destruct (component_differs a0 b0 Ha0 Hb0 E0) as (Hne & Hg & Hl & Hz & Hn).
    eexists. split; [reflexivity |].
    rewrite Hg, Hl.
    split; [intuition congruence |]. split; [intuition congruence |].
    split; [intros [? | ?]; congruence | intros [= ? ? ?]; congruence].
Qed.

(** C4, as the claim states it, fails: the result is a difference of
    components, not a value of [{-1, 0, 1}]. *)
Lemma C4_result_outside_unit_range :
  parseSemverTuple "3.0.0" = Some (Fin 3, Fin 0, Fin 0) /\
  parseSemverTuple "1.0.0" = Some (Fin 1, Fin 0, Fin 0) /\
  compare "3.0.0" "1.0.0" = Some (Fin 2) /\
  ~ In (compare "3.0.0" "1.0.0") [Some (Fin (-1)); Some (Fin 0); Some (Fin 1)].
Proof.
  repeat split; try reflexivity.
  vm_compute. intros [H | [H | [H | []]]]; discriminate.
Qed.

Lemma round_signed_exact z : - 2 ^ 53 < z < 2 ^ 53 -> round_signed z = Fin z.
Proof.
  intros Hz. unfold round_signed, round_double.
  destruct (Z.ltb_spec z 0).
  - destruct (Z.ltb_spec (- z) (2 ^ 53)); [| lia]. f_equal. lia.
  - destruct (Z.ltb_spec z (2 ^ 53)); [reflexivity | lia].
Qed.

Lemma js_strict_eq_decides a b :
  nonneg a -> nonneg b ->
  js_strict_eq a b = if number_eq_dec a b then true else false.
Proof.
  intros Ha Hb. destruct (number_eq_dec a b) as [-> | Hne].
  - now apply js_strict_eq_refl.
  - destruct (js_strict_eq a b) eqn:E; [| reflexivity].
    apply js_strict_eq_true in E. contradiction.
Qed.

(** The value of [compare]: the difference of the first components that
    differ; it is zero exactly on equal tuples whose patch is finite, and
    NaN exactly on equal tuples whose patch is [Infinity]. *)
Lemma compare_value v1 v2 t1 t2 :
  parseSemverTuple v1 = Some t1 -> parseSemverTuple v2 = Some t2 ->
  compare v1 v2 = Some (tuple_difference t1 t2) /\
  (tuple_difference t1 t2 = Fin 0 <-> t1 = t2 /\ snd t1 <> PosInf) /\
  (tuple_difference t1 t2 = NaN <-> t1 = t2 /\ snd t1 = PosInf).
Proof.
  intros H1 H2. unfold compare. rewrite H1, H2.
  apply parseSemverTuple_nonneg in H1, H2.
  destruct t1 as [[a0 a1] a2], t2 as [[b0 b1] b2].
  destruct H1 as (Ha0 & Ha1 & Ha2), H2 as (Hb0 & Hb1 & Hb2).
  unfold tuple_difference.
  rewrite (js_strict_eq_decides a0 b0), (js_strict_eq_decides a1 b1) by assumption.
  cbn [snd].
  destruct (number_eq_dec a0 b0) as [-> | Hne0]; cbn [negb].
  - destruct (number_eq_dec a1 b1) as [-> | Hne1]; cbn [negb].
    + destruct (sub_zero a2 b2 Ha2 Hb2) as [Hz Hn].
      split; [reflexivity |]. rewrite Hz, Hn. split; split.
      * intros [-> Hfin]. auto.
      * intros [[= ->] Hfin]. auto.
      * intros [-> ->]. auto.
      * intros [[= ->] ->]. auto.
    + destruct (sub_zero a1 b1 Ha1 Hb1) as [Hz Hn].
      split; [reflexivity |]. rewrite Hz, Hn. split; split.
      * intros [? _]. contradiction.
      * intros [[= ? ?] _]. contradiction.
      * intros [-> ->]. contradiction.
      * intros [[= ? ?] _]. contradiction.
  - destruct (sub_zero a0 b0 Ha0 Hb0) as [Hz Hn].
    split; [reflexivity |]. rewrite Hz, Hn. split; split.
    + intros [? _]. contradiction.
    + intros [[= ? ? ?] _]. contradiction.
    + intros [-> ->]. contradiction.
    + intros [[= ? ? ?] _]. contradiction.
Qed.

(** On components below [2 ^ 53] the difference is the integer one. *)
Lemma tuple_difference_exact x0 x1 x2 y0 y1 y2 :
  0 <= x0 < 2 ^ 53 -> 0 <= x1 < 2 ^ 53 -> 0 <= x2 < 2 ^ 53 ->
  0 <= y0 < 2 ^ 53 -> 0 <= y1 < 2 ^ 53 -> 0 <= y2 < 2 ^ 53 ->
  tuple_difference (Fin x0, Fin x1, Fin x2) (Fin y0, Fin y1, Fin y2)
  = Fin (first_difference x0 x1 x2 y0 y1 y2).
Proof.
  intros. unfold tuple_difference, first_difference.
  destruct (number_eq_dec (Fin x0) (Fin y0)) as [[= ->] | Hne0].
  - rewrite Z.eqb_refl.
    destruct (number_eq_dec (Fin x1) (Fin y1)) as [[= ->] | Hne1].
    + rewrite Z.eqb_refl. cbn [js_sub]. apply round_signed_exact. lia.
    + destruct (Z.eqb_spec x1 y1) as [-> | _]; [congruence |].
      cbn [js_sub]. apply round_signed_exact. lia.
  - destruct (Z.eqb_spec x0 y0) as [-> | _]; [congruence |].
    cbn [js_sub]. apply round_signed_exact. lia.
Qed.

(** C4 (amended): on two version strings that both have a tuple,
    [compare] returns a number (it does not throw): the difference of the
    first components that differ, major first, or of the patch components
    when none differs, which is the integer difference when the
    components are below [2 ^ 53], so it need not be one of -1, 0, 1.
    Its sign agrees with the lexicographic order of the tuples: it is
    negative exactly when the first tuple is smaller, positive exactly
    when it is larger, zero exactly when the tuples are equal with a
    finite patch, and NaN exactly when they are equal with patch
    [Infinity]. *)
Theorem C4_compare_sign v1 v2 t1 t2 :
  parseSemverTuple v1 = Some t1 ->
  parseSemverTuple v2 = Some t2 ->
  exists c,
    compare v1 v2 = Some c /\
    c = tuple_difference t1 t2 /\
    (js_lt c (Fin 0) = true <-> tuple_lt t1 t2) /\
    (js_gt c (Fin 0) = true <-> tuple_lt t2 t1) /\
    (c = Fin 0 \/ c = NaN <-> t1 = t2) /\
    (c = Fin 0 <-> t1 = t2 /\ snd t1 <> PosInf) /\
    (c = NaN <-> t1 = t2 /\ snd t1 = PosInf) /\
    (forall x0 x1 x2 y0 y1 y2,
        t1 = (Fin x0, Fin x1, Fin x2) -> t2 = (Fin y0, Fin y1, Fin y2) ->
        x0 < 2 ^ 53 -> x1 < 2 ^ 53 -> x2 < 2 ^ 53 ->
        y0 < 2 ^ 53 -> y1 < 2 ^ 53 -> y2 < 2 ^ 53 ->
        c = Fin (first_difference x0 x1 x2 y0 y1 y2)).
Proof.
  intros H1 H2.
  destruct (compare_parsed v1 v2 t1 t2 H1 H2) as (c & Hc & Hlt & Hgt & Heq).
  destruct (compare_value v1 v2 t1 t2 H1 H2) as (Hv & Hzero & Hnan).
  assert (c = tuple_difference t1 t2) as Hcv by congruence.
  exists c. split; [assumption |]. split; [assumption |].
  do 3 (split; [assumption |]).
  rewrite Hcv. split; [assumption |]. split; [assumption |].
  intros x0 x1 x2 y0 y1 y2 -> -> ? ? ? ? ? ?.
  pose proof (parseSemverTuple_nonneg _ _ H1) as (? & ? & ?).
  pose proof (parseSemverTuple_nonneg _ _ H2) as (? & ? & ?).
  simpl in *. apply tuple_difference_exact; lia.
Qed.

Lemma C4_compare_sign_witness :
  exists c,
    compare "1.2.3" "1.2.4" = Some c /\
    c = tuple_difference (Fin 1, Fin 2, Fin 3) (Fin 1, Fin 2, Fin 4) /\
    (js_lt c (Fin 0) = true <-> tuple_lt (Fin 1, Fin 2, Fin 3) (Fin 1, Fin 2, Fin 4)) /\
    (js_gt c (Fin 0) = true <-> tuple_lt (Fin 1, Fin 2, Fin 4) (Fin 1, Fin 2, Fin 3)) /\
    (c = Fin 0 \/ c = NaN <-> (Fin 1, Fin 2, Fin 3) = (Fin 1, Fin 2, Fin 4)) /\
    (c = Fin 0 <-> (Fin 1, Fin 2, Fin 3) = (Fin 1, Fin 2, Fin 4)
                   /\ snd (Fin 1, Fin 2, Fin 3) <> PosInf) /\
    (c = NaN <-> (Fin 1, Fin 2, Fin 3) = (Fin 1, Fin 2, Fin 4)
                 /\ snd (Fin 1, Fin 2, Fin 3) = PosInf) /\
    (forall x0 x1 x2 y0 y1 y2,
        (Fin 1, Fin 2, Fin 3) = (Fin x0, Fin x1, Fin x2) ->
        (Fin 1, Fin 2, Fin 4) = (Fin y0, Fin y1, Fin y2) ->
        x0 < 2 ^ 53 -> x1 < 2 ^ 53 -> x2 < 2 ^ 53 ->
        y0 < 2 ^ 53 -> y1 < 2 ^ 53 -> y2 < 2 ^ 53 ->
        c = Fin (first_difference x0 x1 x2 y0 y1 y2)).
Proof.
  apply (C4_compare_sign "1.2.3" "1.2.4" (Fin 1, Fin 2, Fin 3) (Fin 1, Fin 2, Fin 4));
    reflexivity.
Defined.

End Comparator.

(** ** [getUpgradeOptions] *)

Section Classifier.

Lemma tuple_lt_irrefl t : ~ tuple_lt t t.
Proof.
  destruct t as [[a b] c]. unfold tuple_lt.
  pose proof (num_lt_irrefl a). pose proof (num_lt_irrefl b).
  pose proof (num_lt_irrefl c). tauto.
Qed.

Lemma tuple_lt_trans t1 t2 t3 : tuple_lt t1 t2 -> tuple_lt t2 t3 -> tuple_lt t1 t3.
Proof.
  destruct t1 as [[a0 a1] a2], t2 as [[b0 b1] b2], t3 as [[c0 c1] c2].
  unfold tuple_lt.
  intros [H1 | [-> [H1 | [-> H1]]]] [H2 | [<- [H2 | [<- H2]]]];
    eauto 6 using num_lt_trans.
Qed.

Lemma tuple_le_lt_trans t1 t2 t3 : tuple_le t1 t2 -> tuple_lt t2 t3 -> tuple_lt t1 t3.
Proof. intros [H | ->]; eauto using tuple_lt_trans. Qed.

Lemma tuple_le_trans t1 t2 t3 : tuple_le t1 t2 -> tuple_le t2 t3 -> tuple_le t1 t3.
Proof.
  intros H [H' | <-]; [| assumption].
  destruct H as [H | ->]; left; eauto using tuple_lt_trans.
Qed.

Lemma tuple_total t1 t2 :
  nonneg_tuple t1 -> nonneg_tuple t2 -> tuple_lt t1 t2 \/ tuple_le t2 t1.
Proof.
  destruct t1 as [[a0 a1] a2], t2 as [[b0 b1] b2].
  intros (Ha0 & Ha1 & Ha2) (Hb0 & Hb1 & Hb2). unfold tuple_le, tuple_lt.
  destruct (num_lt_total a0 b0 Ha0 Hb0) as [H | [-> | H]]; [tauto | | tauto].
  destruct (num_lt_total a1 b1 Ha1 Hb1) as [H | [-> | H]]; [tauto | | tauto].
  destruct (num_lt_total a2 b2 Ha2 Hb2) as [H | [-> | H]]; tauto.
Qed.

Lemma in_patch_tier_lt cur t : in_patch_tier cur t = true -> tuple_lt cur t.
Proof.
  destruct cur as [[c0 c1] c2], t as [[a0 a1] a2]. unfold in_patch_tier, tuple_lt.
  intros H. apply andb_true_iff in H as [H H2]. apply andb_true_iff in H as [H0 H1].
  apply js_strict_eq_true in H0 as ->. apply js_strict_eq_true in H1 as ->.
  right. split; [reflexivity |]. right. split; [reflexivity |]. exact H2.
Qed.

Lemma in_minor_tier_lt cur t : in_minor_tier cur t = true -> tuple_lt cur t.
Proof.
  destruct cur as [[c0 c1] c2], t as [[a0 a1] a2]. unfold in_minor_tier, tuple_lt.
  intros H. apply andb_true_iff in H as [H0 H1].
  apply js_strict_eq_true in H0 as ->.
  right. split; [reflexivity |]. left. exact H1.
Qed.

Lemma in_major_tier_lt cur t : in_major_tier cur t = true -> tuple_lt cur t.
Proof.
  destruct cur as [[c0 c1] c2], t as [[a0 a1] a2]. unfold in_major_tier, tuple_lt.
  intros H. left. exact H.
Qed.

(** [if (!max || compare(ver, max) > 0) max = ver], when [ver] and the
    running maximum both have a tuple: no exception, and the maximum is
    replaced exactly when [ver] is strictly greater. *)
Lemma update_max_parsed ver tv m :
  parseSemverTuple ver = Some tv ->
  (forall x, m = Some x -> exists tx, parseSemverTuple x = Some tx) ->
  exists m',
    update_max ver m = Some m' /\
    match m with
    | None => m' = Some ver
    | Some x =>
        exists tx, parseSemverTuple x = Some tx /\
                   ((tuple_lt tx tv /\ m' = Some ver) \/ (tuple_le tv tx /\ m' = m))
    end.
Proof.
  intros Hv Hm. destruct m as [x |]; simpl; [| eauto].
  destruct (Hm x eq_refl) as [tx Hx].
  assert (Hne : (x =? "")%string = false).
  { apply String.eqb_neq. eapply parseSemverTuple_nonempty; eauto. }
  rewrite Hne. simpl.
  destruct (compare_parsed ver x tv tx Hv Hx) as (c & -> & _ & Hgt & _).
  eexists. split; [reflexivity |]. exists tx. split; [assumption |].
  destruct (js_gt c (Fin 0)) eqn:Hc.
  - left. split; [apply Hgt; reflexivity | reflexivity].
  - right. split; [| reflexivity].
    destruct (tuple_total tx tv) as [Hlt | Hle];
      eauto using parseSemverTuple_nonneg.
    apply Hgt in Hlt. congruence.
Qed.

(** A version that is no candidate of the tier leaves [first_max] as it
    is. *)
Lemma first_max_skip tier cur seen m ver :
  (forall t, ~ eligible tier cur ver t) ->
  first_max tier cur seen m -> first_max tier cur (seen ++ [ver]) m.
Proof.
  intros Hno. destruct m as [v |]; simpl.
  - intros (tv & l1 & l2 & -> & Hv & H1 & H2).
    exists tv, l1, (l2 ++ [ver]). split; [now rewrite <- app_assoc |].
    split; [assumption |]. split; [assumption |].
    intros w tw Hin Hw. apply in_app_or in Hin as [Hin | [<- | []]]; [eauto |].
    now apply Hno in Hw.
  - intros Hnone w t Hin Hw. apply in_app_or in Hin as [Hin | [<- | []]].
    + exact (Hnone w t Hin Hw).
    + exact (Hno t Hw).
Qed.

Lemma first_max_parsed tier cur seen m x :
  first_max tier cur seen m -> m = Some x -> exists tx, parseSemverTuple x = Some tx.
Proof. intros H ->. destruct H as (tv & _ & _ & _ & (Hp & _) & _). eauto. Qed.

(** A candidate of the tier: the update does not throw and keeps
    [first_max]. *)
Lemma first_max_update tier cur seen m ver tv :
  eligible tier cur ver tv ->
  first_max tier cur seen m ->
  exists m', update_max ver m = Some m' /\ first_max tier cur (seen ++ [ver]) m'.
Proof.
  intros Hel Hinv.
  destruct (update_max_parsed ver tv m) as (m' & Hup & Hm');
    [apply Hel | eauto using first_max_parsed |].
  exists m'. split; [assumption |].
  destruct m as [x |].
  - destruct Hm' as (tx & Hx & [[Hlt ->] | [Hle ->]]);
      destruct Hinv as (tx' & l1 & l2 & -> & Hxel & H1 & H2);
      assert (tx' = tx) as -> by (destruct Hxel as [Hp _]; congruence).
    + exists tv, (l1 ++ x :: l2), []. split; [reflexivity |].
      split; [assumption |]. split; [| intros ? ? []].
      intros w tw Hin Hw.
      apply in_app_or in Hin as [Hin | [<- | Hin]].
      * eapply tuple_lt_trans; eauto.
      * assert (tw = tx) as -> by (destruct Hw as [Hp _]; congruence). assumption.
      * eapply tuple_le_lt_trans; eauto.
    + exists tx, l1, (l2 ++ [ver]). split; [now rewrite <- app_assoc |].
      split; [assumption |]. split; [assumption |].
      intros w tw Hin Hw. apply in_app_or in Hin as [Hin | [<- | []]]; [eauto |].
      assert (tw = tv) as -> by (destruct Hw as [Hp _]; destruct Hel as [Hp' _]; congruence).
      assumption.
  - subst m'. simpl in Hinv.
    exists tv, seen, []. split; [reflexivity |]. split; [assumption |].
    split; [| intros ? ? []].
    intros w tw Hin Hw. exfalso. exact (Hinv w tw Hin Hw).
Qed.

(** One tier of one iteration of the loop. *)
Lemma tier_step tier cur seen m ver tuple :
  parseSemverTuple ver = Some tuple ->
  includes "-" ver = false ->
  first_max tier cur seen m ->
  exists m',
    (if tier cur tuple then update_max ver m else Some m) = Some m' /\
    first_max tier cur (seen ++ [ver]) m'.
Proof.
  intros Hp Hd Hinv. destruct (tier cur tuple) eqn:Ht.
  - eapply first_max_update; [split; eauto | assumption].
  - exists m. split; [reflexivity |]. apply first_max_skip; [| assumption].
    intros t (Hp' & _ & Ht'). congruence.
Qed.

Lemma scan_step_inv cur seen st ver :
  scan_inv cur seen st ->
  exists st', scan_step cur st ver = Some st' /\ scan_inv cur (seen ++ [ver]) st'.
Proof.
  intros (Hpatch & Hminor & Hmajor). unfold scan_step.
  destruct (parseSemverTuple ver) as [tuple |] eqn:Hp.
  - destruct (includes "-" ver) eqn:Hd.
    + exists st. split; [reflexivity |].
      repeat split; apply first_max_skip; try assumption;
        intros t (_ & Hd' & _); congruence.
    + destruct (tier_step in_patch_tier cur seen _ ver tuple Hp Hd Hpatch) as (p & -> & Hp').
      destruct (tier_step in_minor_tier cur seen _ ver tuple Hp Hd Hminor) as (mi & -> & Hmi').
      destruct (tier_step in_major_tier cur seen _ ver tuple Hp Hd Hmajor) as (ma & -> & Hma').
      eexists. split; [reflexivity |]. repeat split; assumption.
  - exists st. split; [reflexivity |].
    repeat split; apply first_max_skip; try assumption;
      intros t (Hp' & _); congruence.
Qed.

Lemma scan_keeps_inv cur allVersions : forall seen st,
  scan_inv cur seen st ->
  exists st', scan cur st allVersions = Some st' /\ scan_inv cur (seen ++ allVersions) st'.
Proof.
  induction allVersions as [| ver rest IH]; intros seen st Hinv; simpl.
  - exists st. rewrite app_nil_r. auto.
  - destruct (scan_step_inv cur seen st ver Hinv) as (st1 & -> & Hinv1).
    destruct (IH _ _ Hinv1) as (st' & Hscan & Hinv').
    exists st'. split; [assumption |].
    now rewrite <- app_assoc in Hinv'.
Qed.

Lemma scan_inv_init cur : scan_inv cur [] (mkMaxima None None None).
Proof. repeat split; intros w t []. Qed.

(** The whole loop: it does not throw, and each running maximum is the
    first greatest candidate of its tier. *)
Lemma scan_total cur allVersions :
  exists st,
    scan cur (mkMaxima None None None) allVersions = Some st /\
    scan_inv cur allVersions st.
Proof.
  destruct (scan_keeps_inv cur allVersions [] _ (scan_inv_init cur)) as (st & H & Hinv).
  eauto.
Qed.

(** Versions with a prerelease marker are skipped by the loop. *)
Lemma scan_step_prerelease cur st ver :
  includes "-" ver = true -> scan_step cur st ver = Some st.
Proof.
  intros Hd. unfold scan_step. rewrite Hd. now destruct (parseSemverTuple ver).
Qed.

Lemma scan_ignores_prereleases cur allVersions : forall st,
  scan cur st allVersions
  = scan cur st (List.filter (fun v => negb (includes "-" v)) allVersions).
Proof.
  induction allVersions as [| ver rest IH]; intros st; simpl; [reflexivity |].
  destruct (includes "-" ver) eqn:Hd; simpl.
  - rewrite scan_step_prerelease by assumption. apply IH.
  - destruct (scan_step cur st ver); [apply IH | reflexivity].
Qed.

Lemma surfaced_tier_field tier current cur allVersions latestTag m :
  parseSemverTuple current = Some cur ->
  (forall t, tier cur t = true -> tuple_lt cur t) ->
  first_max tier cur allVersions m ->
  tier_field tier current allVersions latestTag
    (if negb (latestTag =? current)%string then surfaced m latestTag else None).
Proof.
  intros Hcur Hlt Hinv.
  destruct (String.eqb_spec latestTag current) as [Heq | Hne]; simpl; [exact I |].
  destruct m as [v |]; simpl; [| exact I].
  destruct Hinv as (tv & l1 & l2 & -> & (Hp & Hd & Ht) & _).
  destruct (String.eqb_spec v "") as [-> | _]; simpl; [exact I |].
  destruct (String.eqb_spec v latestTag) as [-> | Hvl]; simpl; [exact I |].
  exists cur, tv. repeat split; auto.
  apply in_or_app. right. now left.
Qed.

(** C1, as the claim states it, fails: the prerelease field, when
    populated, is the latest tag itself. *)
Lemma C1_prerelease_equals_latest :
  exists r,
    getUpgradeOptions "1.0.0" ["1.0.0"; "2.0.0-beta.1"] "2.0.0-beta.1" = Some r /\
    prerelease r = Some (latest r) /\
    ~ distinct_from_latest r.
Proof.
  eexists. split; [vm_compute; reflexivity |]. split; [reflexivity |].
  intros H. apply (H "2.0.0-beta.1"); [| reflexivity].
  simpl. auto.
Qed.

(** C1 (amended): [getUpgradeOptions] always returns; [latest] is the
    latest tag supplied; a populated [patch], [minor] or [major] names a
    candidate without prerelease marker whose tuple passes the test of
    its tier against the current tuple (so it is strictly greater than
    it) and that differs from [latest]; a populated [prerelease] is the
    latest tag itself, a tag with a prerelease marker, offered when the
    current version has none. *)
Theorem C1_upgrade_options_invariant current allVersions latestTag :
  exists r,
    getUpgradeOptions current allVersions latestTag = Some r /\
    latest r = latestTag /\
    tier_field in_patch_tier current allVersions latestTag (patch r) /\
    tier_field in_minor_tier current allVersions latestTag (minor r) /\
    tier_field in_major_tier current allVersions latestTag (major r) /\
    match prerelease r with
    | None => True
    | Some v =>
        v = latestTag /\ includes "-" latestTag = true /\ includes "-" current = false
    end.
Proof.
  unfold getUpgradeOptions.
  destruct (parseSemverTuple current) as [cur |] eqn:Hcur.
  - destruct (scan_total cur allVersions) as (st & -> & Hpatch & Hminor & Hmajor).
    eexists. split; [reflexivity |]. cbn [latest patch minor major prerelease].
    split; [reflexivity |].
    split; [eapply surfaced_tier_field; eauto using in_patch_tier_lt |].
    split; [eapply surfaced_tier_field; eauto using in_minor_tier_lt |].
    split; [eapply surfaced_tier_field; eauto using in_major_tier_lt |].
    destruct (includes "-" latestTag), (includes "-" current); simpl; auto.
  - eexists. split; [reflexivity |]. simpl. auto.
Qed.

(** C2: current "1.2.3", candidates "1.2.4", "1.3.0" and "2.0.0" in any
    order, latest tag "2.0.0": the result is exactly
    [{ latest: "2.0.0", patch: "1.2.4", minor: "1.3.0" }]. *)
Theorem C2_classify_example candidates :
  candidates ≡ₚ ["1.2.4"; "1.3.0"; "2.0.0"] ->
  getUpgradeOptions "1.2.3" candidates "2.0.0"
  = Some {| major := None; minor := Some "1.3.0"; patch := Some "1.2.4";
            prerelease := None; latest := "2.0.0" |}.
Proof.
  intros Hperm. symmetry in Hperm. apply permutations_Permutation in Hperm.
  revert candidates Hperm. apply Forall_forall.
  repeat constructor.
Qed.

Lemma C2_classify_example_witness :
  getUpgradeOptions "1.2.3" ["1.2.4"; "1.3.0"; "2.0.0"] "2.0.0"
  = Some {| major := None; minor := Some "1.3.0"; patch := Some "1.2.4";
            prerelease := None; latest := "2.0.0" |}.
Proof. apply (C2_classify_example ["1.2.4"; "1.3.0"; "2.0.0"]). reflexivity. Defined.

(** C3, as the claim states it, fails: of two candidates with equal
    tuples the loop keeps the first, not the last. *)
Lemma C3_ties_keep_first_candidate :
  scan (Fin 1, Fin 0, Fin 0) (mkMaxima None None None) ["1.0.1"; "1.0.1+b"]
  = Some (mkMaxima (Some "1.0.1") None None) /\
  compare "1.0.1+b" "1.0.1" = Some (Fin 0) /\
  getUpgradeOptions "1.0.0" ["1.0.1"; "1.0.1+b"] "2.0.0"
  = Some (mkOptions None None (Some "1.0.1") None "2.0.0") /\
  ~ last_max in_patch_tier (Fin 1, Fin 0, Fin 0) ["1.0.1"; "1.0.1+b"] (Some "1.0.1").
Proof.
  split; [vm_compute; reflexivity |]. split; [vm_compute; reflexivity |].
  split; [vm_compute; reflexivity |].
  intros (tv & l1 & l2 & Heq & (Hp & _) & _ & Hafter).
  assert (tv = (Fin 1, Fin 0, Fin 1)) as -> by (vm_compute in Hp; congruence).
  destruct l1 as [| a [| b l1]]; simpl in Heq.
  - injection Heq as <-.
    apply (tuple_lt_irrefl (Fin 1, Fin 0, Fin 1)).
    apply (Hafter "1.0.1+b"); [now left |].
    repeat split; vm_compute; reflexivity.
  - discriminate.
  - destruct l1; discriminate.
Qed.

(** C3 (amended): the loop of [getUpgradeOptions] never throws; versions
    with a prerelease marker [-] have no effect on it; and each tier's
    running maximum is a candidate of the tier (it has a tuple, no marker,
    and passes the tier's test) whose tuple is greatest among the tier's
    candidates, the first such candidate in iteration order when several
    have equal tuples.  The tier fields of the result are these maxima,
    subject to the comparison with the latest tag. *)
Theorem C3_tier_maxima current cur allVersions latestTag :
  parseSemverTuple current = Some cur ->
  exists st,
    scan cur (mkMaxima None None None) allVersions = Some st /\
    scan cur (mkMaxima None None None)
      (List.filter (fun v => negb (includes "-" v)) allVersions) = Some st /\
    first_max in_patch_tier cur allVersions (maxPatch st) /\
    first_max in_minor_tier cur allVersions (maxMinor st) /\
    first_max in_major_tier cur allVersions (maxMajor st) /\
    exists r,
      getUpgradeOptions current allVersions latestTag = Some r /\
      let tiers := negb (latestTag =? current)%string in
      patch r = (if tiers then surfaced (maxPatch st) latestTag else None) /\
      minor r = (if tiers then surfaced (maxMinor st) latestTag else None) /\
      major r = (if tiers then surfaced (maxMajor st) latestTag else None).
Proof.
  intros Hcur.
  destruct (scan_total cur allVersions) as (st & Hscan & Hpatch & Hminor & Hmajor).
  exists st. split; [assumption |].
  split; [now rewrite <- scan_ignores_prereleases |].
  do 3 (split; [assumption |]).
  unfold getUpgradeOptions. rewrite Hcur, Hscan.
  eexists. split; [reflexivity |]. simpl. auto.
Qed.

Lemma C3_tier_maxima_witness :
  exists st,
    scan (Fin 1, Fin 0, Fin 0) (mkMaxima None None None)
      ["1.0.1"; "1.0.1+b"; "1.0.2-rc.1"] = Some st /\
    scan (Fin 1, Fin 0, Fin 0) (mkMaxima None None None)
      (List.filter (fun v => negb (includes "-" v)) ["1.0.1"; "1.0.1+b"; "1.0.2-rc.1"])
    = Some st /\
    first_max in_patch_tier (Fin 1, Fin 0, Fin 0)
      ["1.0.1"; "1.0.1+b"; "1.0.2-rc.1"] (maxPatch st) /\
    first_max in_minor_tier (Fin 1, Fin 0, Fin 0)
      ["1.0.1"; "1.0.1+b"; "1.0.2-rc.1"] (maxMinor st) /\
    first_max in_major_tier (Fin 1, Fin 0, Fin 0)
      ["1.0.1"; "1.0.1+b"; "1.0.2-rc.1"] (maxMajor st) /\
    exists r,
      getUpgradeOptions "1.0.0" ["1.0.1"; "1.0.1+b"; "1.0.2-rc.1"] "2.0.0" = Some r /\
      let tiers := negb ("2.0.0" =? "1.0.0")%string in
      patch r = (if tiers then surfaced (maxPatch st) "2.0.0" else None) /\
      minor r = (if tiers then surfaced (maxMinor st) "2.0.0" else None) /\
      major r = (if tiers then surfaced (maxMajor st) "2.0.0" else None).
Proof.
  apply (C3_tier_maxima "1.0.0" (Fin 1, Fin 0, Fin 0)
           ["1.0.1"; "1.0.1+b"; "1.0.2-rc.1"] "2.0.0").
  reflexivity.
Defined.

(** C6: for a parseable current version, the prerelease field is set
    exactly when the latest tag contains [-] and the current version does
    not, and it is then the latest tag. *)
Theorem C6_prerelease_field current cur allVersions latestTag :
  parseSemverTuple current = Some cur ->
  exists r,
    getUpgradeOptions current allVersions latestTag = Some r /\
    (prerelease r <> None <->
     includes "-" latestTag = true /\ includes "-" current = false) /\
    (forall v, prerelease r = Some v -> v = latestTag).
Proof.
  intros Hcur. unfold getUpgradeOptions. rewrite Hcur.
  destruct (scan_total cur allVersions) as (st & -> & _).
  eexists. split; [reflexivity |]. cbn [prerelease].
  destruct (includes "-" latestTag), (includes "-" current); simpl;
    (split; [split; [intros H; try congruence; auto | intros [? ?]; congruence]
            | intros v [=]; congruence]).
Qed.

Lemma C6_prerelease_field_witness :
  exists r,
    getUpgradeOptions "1.0.0" ["2.0.0-beta.1"] "2.0.0-beta.1" = Some r /\
    (prerelease r <> None <->
     includes "-" "2.0.0-beta.1" = true /\ includes "-" "1.0.0" = false) /\
    (forall v, prerelease r = Some v -> v = "2.0.0-beta.1").
Proof.
  apply (C6_prerelease_field "1.0.0" (Fin 1, Fin 0, Fin 0) ["2.0.0-beta.1"] "2.0.0-beta.1").
  reflexivity.
Defined.

(** C7: when no tuple can be extracted from the current version, the
    result is exactly [{ latest: latestTag }], whatever the candidates and
    the latest tag. *)
Theorem C7_unparseable_current current allVersions latestTag :
  parseSemverTuple current = None ->
  getUpgradeOptions current allVersions latestTag
  = Some {| major := None; minor := None; patch := None;
            prerelease := None; latest := latestTag |}.
Proof. intros Hcur. unfold getUpgradeOptions. now rewrite Hcur. Qed.

Lemma C7_unparseable_current_witness :
  getUpgradeOptions "workspace:*" ["1.0.0"; "2.0.0"] "3.0.0-rc.1"
  = Some {| major := None; minor := None; patch := None;
            prerelease := None; latest := "3.0.0-rc.1" |}.
Proof.
  apply (C7_unparseable_current "workspace:*" ["1.0.0"; "2.0.0"] "3.0.0-rc.1").
  reflexivity.
Defined.

End Classifier.

(** ** Normalisation of a packument *)

Section Normalisation.

Import Package.

Lemma resolvedVersions_lookup g pkg v :
  resolvedVersions g pkg !! v
  = match pkg_versions pkg !! v with
    | Some pv => if has_time g pkg v then Some (resolve_version v pv) else None
    | None => None
    end.
Proof.
  unfold resolvedVersions. rewrite map_lookup_imap.
  now destruct (pkg_versions pkg !! v).
Qed.


(** The five outcomes of a read, in terms of the own properties. *)
Lemma get_property_cases {A : Type} g (own : gmap string A) v :
  match get_property g own v with
  | Own a => own !! v = Some a
  | Method name => own !! v = None /\ name = v /\ inherited_object v = true /\ v <> "__proto__"
  | ObjectPrototype => own !! v = None /\ inherited_object v = true /\ v = "__proto__"
  | ProtoTag s =>
      own !! v = None /\ inherited_object v = false /\ v = "tag" /\ proto_tag g = Some s
  | Undefined =>
      own !! v = None /\ inherited_object v = false /\ (v = "tag" -> proto_tag g = None)
  end.
Proof.
  unfold get_property, inherited_object.
  destruct (own !! v) as [a |]; [reflexivity |].
  destruct (is_method v) eqn:Hm.
  - repeat split; auto. intros ->. vm_compute in Hm. discriminate.
  - destruct (String.eqb_spec v "__proto__") as [-> | Hp]; [auto |].
    destruct (String.eqb_spec v "tag") as [-> | Ht].
    + destruct (proto_tag g); auto.
    + repeat split; auto. contradiction.
Qed.







(** A packument whose [latest] tag points at a version without publish
    time: the version is dropped, and the normalisation throws. *)
Example normalize_throws_on_dropped_target :
  fst (normalize initial_realm
         {| pkg_versions := {[ "1.0.0" := mkPackumentVersion (mkDist None) None ]};
            pkg_time := ∅;
            pkg_dist_tags := [("latest", "1.0.0")] |})
  = ThrewTypeError.
Proof. vm_compute. reflexivity. Qed.

Example normalize_attaches_tag :
  exists rp,
    fst (normalize initial_realm
           {| pkg_versions := {[ "1.0.0" := mkPackumentVersion (mkDist (Some tt)) None ]};
              pkg_time := {[ "1.0.0" := "2024-01-01T00:00:00.000Z" ]};
              pkg_dist_tags := [("latest", "1.0.0")] |})
    = Returned rp /\
    versions rp !! "1.0.0" = Some (mkResolvedVersion "1.0.0" (Some "latest") true None).
Proof. eexists. split; vm_compute; reflexivity. Qed.

(** A tag that points at [__proto__] lands on [Object.prototype]. *)
Example normalize_pollutes_prototype :
  snd (normalize initial_realm
         {| pkg_versions := ∅; pkg_time := ∅;
            pkg_dist_tags := [("latest", "__proto__")] |})
  = mkRealm (Some "latest") ∅.
Proof. vm_compute. reflexivity. Qed.

End Normalisation.

(** ** The registry metadata cache *)

Import Memoize.

Section Coalescing.

Context {V : Type}.

Implicit Types (c : cache V) (ev : event V) (evs : list (event V)).

(** While the fetch with handle [h] for [name] is in flight, an event
    other than its completion keeps it in flight and starts no fetch for
    [name]. *)
Lemma step_keeps_pending c ev name h :
  entries c !! name = Some (Pending h) ->
  ~ settles name h ev ->
  entries (step c ev) !! name = Some (Pending h) /\
  exists others, fetches (step c ev) = fetches c ++ others /\ name ∉ others.
Proof.
  intros Hp Hns. destruct ev as [name' | name' h' result]; simpl.
  - unfold get. destruct (decide (name' = name)) as [-> | Hne].
    + rewrite Hp. simpl. split; [assumption |].
      exists []. rewrite app_nil_r. split; [reflexivity | apply not_elem_of_nil].
    + destruct (entries c !! name') as [[h'' | v] |]; simpl.
      * split; [assumption |]. exists []. rewrite app_nil_r.
        split; [reflexivity | apply not_elem_of_nil].
      * split; [assumption |]. exists []. rewrite app_nil_r.
        split; [reflexivity | apply not_elem_of_nil].
      * rewrite lookup_insert_ne by assumption. split; [assumption |].
        exists [name']. split; [reflexivity |].
        intros Hin. apply list_elem_of_singleton in Hin. congruence.
  - assert (Hf : fetches (settle name' h' result c) = fetches c).
    { unfold settle. destruct (entries c !! name') as [[h'' | v] |]; try reflexivity.
      destruct (decide (h'' = h')); [| reflexivity]. now destruct result. }
    split.
    + unfold settle. destruct (decide (name' = name)) as [-> | Hne].
      * rewrite Hp. destruct (decide (h = h')) as [<- | ?]; [| assumption].
        exfalso. apply Hns. simpl. auto.
      * destruct (entries c !! name') as [[h'' | v] |]; try assumption.
        destruct (decide (h'' = h')); [| assumption].
        destruct result; simpl;
          [now rewrite lookup_insert_ne | now rewrite lookup_delete_ne].
    + exists []. rewrite app_nil_r, Hf. split; [reflexivity | apply not_elem_of_nil].
Qed.

Lemma run_keeps_pending evs : forall c name h,
  entries c !! name = Some (Pending h) ->
  Forall (fun ev => ~ settles name h ev) evs ->
  entries (run c evs) !! name = Some (Pending h) /\
  exists others, fetches (run c evs) = fetches c ++ others /\ name ∉ others.
Proof.
  induction evs as [| ev evs IH]; intros c name h Hp Hall.
  - split; [assumption |]. exists []. rewrite app_nil_r.
    split; [reflexivity | apply not_elem_of_nil].
  - apply Forall_cons in Hall as [Hev Hall].
    destruct (step_keeps_pending c ev name h Hp Hev) as (Hp1 & o1 & Hf1 & Hn1).
    destruct (IH _ _ _ Hp1 Hall) as (Hp2 & o2 & Hf2 & Hn2).
    change (run c (ev :: evs)) with (run (step c ev) evs).
    split; [assumption |]. exists (o1 ++ o2).
    rewrite Hf2, Hf1, <- app_assoc. split; [reflexivity |].
    intros Hin. apply elem_of_app in Hin as [Hin | Hin]; tauto.
Qed.

(** A resolved entry stays: no event changes it. *)
Lemma step_keeps_resolved c ev name v :
  entries c !! name = Some (Resolved v) ->
  entries (step c ev) !! name = Some (Resolved v).
Proof.
  intros Hr. destruct ev as [name' | name' h' result]; simpl.
  - unfold get. destruct (decide (name' = name)) as [-> | Hne].
    + now rewrite Hr.
    + destruct (entries c !! name') as [[h'' | v'] |]; simpl; try assumption.
      now rewrite lookup_insert_ne.
  - unfold settle. destruct (decide (name' = name)) as [-> | Hne].
    + now rewrite Hr.
    + destruct (entries c !! name') as [[h'' | v'] |]; try assumption.
      destruct (decide (h'' = h')); [| assumption].
      destruct result; simpl;
        [now rewrite lookup_insert_ne | now rewrite lookup_delete_ne].
Qed.

Lemma run_keeps_resolved evs : forall c name v,
  entries c !! name = Some (Resolved v) ->
  entries (run c evs) !! name = Some (Resolved v).
Proof.
  induction evs as [| ev evs IH]; intros c name v Hr; [assumption |].
  change (run c (ev :: evs)) with (run (step c ev) evs).
  apply IH. now apply step_keeps_resolved.
Qed.

Lemma run_app c evs1 evs2 : run c (evs1 ++ evs2) = run (run c evs1) evs2.
Proof. unfold run. apply fold_left_app. Qed.

Lemma settle_pending c name h v :
  entries c !! name = Some (Pending h) ->
  entries (settle name h (Some v) c) !! name = Some (Resolved v).
Proof.
  intros Hp. unfold settle. rewrite Hp.
  destruct (decide (h = h)); [| congruence]. simpl. apply lookup_insert_eq.
Qed.

(** C8: on a name with no entry, [get] starts one fetch and returns a
    pending handle; as long as that fetch has not completed, every call
    for the name, after any other calls and completions, returns the same
    handle and starts no fetch for the name; once the fetch has resolved
    with a value, every later call for the name, whatever happened in
    between, returns that value at once and leaves the cache as it is. *)
Theorem C8_cache_coalesces_and_persists c name :
  entries c !! name = None ->
  exists h c1,
    get name c = (PendingHandle h, c1) /\
    fetches c1 = fetches c ++ [name] /\
    (forall evs,
        Forall (fun ev => ~ settles name h ev) evs ->
        get name (run c1 evs) = (PendingHandle h, run c1 evs) /\
        exists others, fetches (run c1 evs) = fetches c1 ++ others /\ name ∉ others) /\
    (forall evs v evs',
        Forall (fun ev => ~ settles name h ev) evs ->
        let c3 := run c1 (evs ++ Settled name h (Some v) :: evs') in
        get name c3 = (Value v, c3)).
Proof.
  intros Hnone. unfold get at 1. rewrite Hnone.
  eexists _, _. split; [reflexivity |]. cbn [fetches].
  split; [reflexivity |].
  set (h := length (fetches c)).
  set (c1 := mkCache (<[name := Pending h]> (entries c)) (fetches c ++ [name])).
  assert (Hp1 : entries c1 !! name = Some (Pending h)) by apply lookup_insert_eq.
  split.
  - intros evs Hall.
    destruct (run_keeps_pending evs c1 name h Hp1 Hall) as (Hp & Hothers).
    split; [| exact Hothers]. unfold get. now rewrite Hp.
  - intros evs v evs' Hall.
    set (c3 := run c1 (evs ++ Settled name h (Some v) :: evs')).
    destruct (run_keeps_pending evs c1 name h Hp1 Hall) as (Hp & _).
    assert (Hr : entries c3 !! name = Some (Resolved v)).
    { subst c3. rewrite run_app.
      change (run (run c1 evs) (Settled name h (Some v) :: evs'))
        with (run (settle name h (Some v) (run c1 evs)) evs').
      apply run_keeps_resolved. now apply settle_pending. }
    unfold get. now rewrite Hr.
Qed.

End Coalescing.

Lemma C8_cache_coalesces_and_persists_witness :
  exists (h : handle) (c1 : cache nat),
    get "pkg" (empty_cache (V := nat)) = (PendingHandle h, c1) /\
    fetches c1 = fetches (empty_cache (V := nat)) ++ ["pkg"] /\
    (forall evs,
        Forall (fun ev => ~ settles "pkg" h ev) evs ->
        get "pkg" (run c1 evs) = (PendingHandle h, run c1 evs) /\
        exists others, fetches (run c1 evs) = fetches c1 ++ others /\ "pkg" ∉ others) /\
    (forall evs (v : nat) evs',
        Forall (fun ev => ~ settles "pkg" h ev) evs ->
        let c3 := run c1 (evs ++ Settled "pkg" h (Some v) :: evs') in
        get "pkg" c3 = (Value v, c3)).
Proof.
  apply (C8_cache_coalesces_and_persists (V := nat) empty_cache "pkg").
  reflexivity.
Defined.

(* ================================================================= *)
(** * Further properties *)

(** ** utils/semver *)

Section SemverFurther.

(** The components [parseSemverTuple] returns are non-negative integers
    or [Infinity]: never NaN, never negative. *)
Theorem parseSemverTuple_components s a b c :
  parseSemverTuple s = Some (a, b, c) -> nonneg a /\ nonneg b /\ nonneg c.
Proof. intros H. exact (parseSemverTuple_nonneg s (a, b, c) H). Qed.

Lemma parseSemverTuple_components_witness :
  nonneg (Fin 1) /\ nonneg (Fin 2) /\ nonneg (Fin 3).
Proof. apply (parseSemverTuple_components "1.2.3-rc.1"). reflexivity. Defined.

Lemma digits1_leading_zero s :
  starts_with_digit s = true ->
  exists g tl, digits1 s = Some (g, tl) /\ digits1 (String "0" s) = Some (String "0" g, tl).
Proof.
  intros Hd. destruct s as [| c s]; [discriminate |]. simpl in Hd.
  unfold digits1. cbn [span_digits]. rewrite Hd.
  change (is_digit "0") with true. cbn iota.
  destruct (span_digits s) as [ds s1]. eauto.
Qed.

(** A zero put before the major run changes nothing: the parser does not
    reject leading zeros, and [Number] drops them. *)
Theorem parseSemverTuple_leading_zero s :
  starts_with_digit s = true ->
  parseSemverTuple (String "0" s) = parseSemverTuple s.
Proof.
  intros Hd. destruct (digits1_leading_zero s Hd) as (g & s1 & H1 & H0).
  unfold parseSemverTuple, match_semver. rewrite H1, H0.
  destruct (dot s1) as [s2 |]; [| reflexivity].
  destruct (digits1 s2) as [[g2 s3] |]; [| reflexivity].
  destruct (dot s3) as [s4 |]; [| reflexivity].
  destruct (digits1 s4) as [[g3 s5] |]; reflexivity.
Qed.

Lemma parseSemverTuple_leading_zero_witness :
  parseSemverTuple "01.2.3" = parseSemverTuple "1.2.3".
Proof. apply (parseSemverTuple_leading_zero "1.2.3"). reflexivity. Defined.

Lemma compare_Some_parsed v1 v2 c :
  compare v1 v2 = Some c ->
  exists t1 t2, parseSemverTuple v1 = Some t1 /\ parseSemverTuple v2 = Some t2.
Proof.
  unfold compare.
  destruct (parseSemverTuple v1) as [[[a0 a1] a2] |]; [| discriminate].
  destruct (parseSemverTuple v2) as [[[b0 b1] b2] |]; [| discriminate].
  eauto.
Qed.

(** Swapping the arguments of [compare] swaps the sign of the result. *)
Theorem compare_antisymmetric v1 v2 c :
  compare v1 v2 = Some c ->
  exists c',
    compare v2 v1 = Some c' /\
    (js_gt c (Fin 0) = true <-> js_lt c' (Fin 0) = true) /\
    (js_lt c (Fin 0) = true <-> js_gt c' (Fin 0) = true).
Proof.
  intros Hc. destruct (compare_Some_parsed _ _ _ Hc) as (t1 & t2 & H1 & H2).
  destruct (compare_parsed v1 v2 t1 t2 H1 H2) as (c0 & Hc0 & Hlt & Hgt & _).
  assert (c0 = c) as -> by congruence.
  destruct (compare_parsed v2 v1 t2 t1 H2 H1) as (c' & Hc' & Hlt' & Hgt' & _).
  exists c'. split; [assumption |]. rewrite Hlt, Hgt, Hlt', Hgt'. tauto.
Qed.

Lemma compare_antisymmetric_witness :
  exists c',
    compare "1.2.3" "1.4.0" = Some c' /\
    (js_gt (Fin 2) (Fin 0) = true <-> js_lt c' (Fin 0) = true) /\
    (js_lt (Fin 2) (Fin 0) = true <-> js_gt c' (Fin 0) = true).
Proof. apply (compare_antisymmetric "1.4.0" "1.2.3" (Fin 2)). reflexivity. Defined.

(** "Greater" according to [compare] is transitive. *)
Theorem compare_greater_transitive v1 v2 v3 c12 c23 :
  compare v1 v2 = Some c12 -> js_gt c12 (Fin 0) = true ->
  compare v2 v3 = Some c23 -> js_gt c23 (Fin 0) = true ->
  exists c13, compare v1 v3 = Some c13 /\ js_gt c13 (Fin 0) = true.
Proof.
  intros H12 Hg12 H23 Hg23.
  destruct (compare_Some_parsed _ _ _ H12) as (t1 & t2 & H1 & H2).
  destruct (compare_Some_parsed _ _ _ H23) as (t2' & t3 & H2' & H3).
  assert (t2' = t2) as -> by congruence.
  destruct (compare_parsed v1 v2 t1 t2 H1 H2) as (c & Hc & _ & Hgt12 & _).
  assert (c = c12) as -> by congruence.
  destruct (compare_parsed v2 v3 t2 t3 H2 H3) as (c & Hc' & _ & Hgt23 & _).
  assert (c = c23) as -> by congruence.
  destruct (compare_parsed v1 v3 t1 t3 H1 H3) as (c13 & Hc13 & _ & Hgt13 & _).
  exists c13. split; [assumption |]. apply Hgt13.
  eapply tuple_lt_trans; [apply Hgt23 | apply Hgt12]; assumption.
Qed.

Lemma compare_greater_transitive_witness :
  exists c13, compare "2.0.0" "1.0.9" = Some c13 /\ js_gt c13 (Fin 0) = true.
Proof.
  apply (compare_greater_transitive "2.0.0" "1.5.0" "1.0.9" (Fin 1) (Fin 5));
    reflexivity.
Defined.

Lemma tier_tests_exclusive cur t :
  in_patch_tier cur t && in_minor_tier cur t = false /\
  in_patch_tier cur t && in_major_tier cur t = false /\
  in_minor_tier cur t && in_major_tier cur t = false.
Proof.
  destruct cur as [[c0 c1] c2], t as [[a0 a1] a2].
  unfold in_patch_tier, in_minor_tier, in_major_tier.
  assert (Hex : forall a b, js_strict_eq a b = true -> js_gt a b = false).
  { intros a b H. apply js_strict_eq_true in H as ->.
    destruct (js_gt b b) eqn:E; [| reflexivity].
    exfalso. exact (num_lt_irrefl b E). }
  destruct (js_strict_eq a0 c0) eqn:E0; [rewrite (Hex _ _ E0) |];
    (destruct (js_strict_eq a1 c1) eqn:E1; [rewrite (Hex _ _ E1) |]);
    simpl; rewrite ?andb_false_r; auto.
Qed.

(** No tuple passes the test of two tiers: a candidate counts for at most
    one of patch, minor and major. *)
Theorem tiers_are_exclusive cur t :
  in_patch_tier cur t && in_minor_tier cur t = false /\
  in_patch_tier cur t && in_major_tier cur t = false /\
  in_minor_tier cur t && in_major_tier cur t = false.
Proof. exact (tier_tests_exclusive cur t). Qed.

End SemverFurther.

(** ** [getUpgradeOptions] *)

Section ClassifierFurther.

(** The result in terms of the loop's maxima. *)
Lemma getUpgradeOptions_parsed current cur allVersions latestTag :
  parseSemverTuple current = Some cur ->
  exists st,
    scan cur (mkMaxima None None None) allVersions = Some st /\
    scan_inv cur allVersions st /\
    getUpgradeOptions current allVersions latestTag
    = Some {|
        major := if negb (latestTag =? current)%string
                 then surfaced (maxMajor st) latestTag else None;
        minor := if negb (latestTag =? current)%string
                 then surfaced (maxMinor st) latestTag else None;
        patch := if negb (latestTag =? current)%string
                 then surfaced (maxPatch st) latestTag else None;
        prerelease := if includes "-" latestTag && negb (includes "-" current)
                      then Some latestTag else None;
        latest := latestTag |}.
Proof.
  intros Hcur. destruct (scan_total cur allVersions) as (st & Hscan & Hinv).
  exists st. split; [assumption |]. split; [assumption |].
  unfold getUpgradeOptions. now rewrite Hcur, Hscan.
Qed.

(** When the latest tag is the current version itself, the result is
    [{ latest }] alone, whatever the candidates: no tier, no prerelease. *)
Theorem getUpgradeOptions_at_latest current allVersions :
  getUpgradeOptions current allVersions current
  = Some {| major := None; minor := None; patch := None;
            prerelease := None; latest := current |}.
Proof.
  destruct (parseSemverTuple current) as [cur |] eqn:Hcur.
  - destruct (getUpgradeOptions_parsed current cur allVersions current Hcur)
      as (st & _ & _ & ->).
    rewrite String.eqb_refl, andb_negb_r. reflexivity.
  - unfold getUpgradeOptions. now rewrite Hcur.
Qed.

(** The populated tier fields name different versions: no version is
    offered under two tiers. *)
Theorem tier_fields_are_distinct current allVersions latestTag :
  exists r,
    getUpgradeOptions current allVersions latestTag = Some r /\
    (forall v, patch r = Some v -> minor r <> Some v /\ major r <> Some v) /\
    (forall v, minor r = Some v -> major r <> Some v).
Proof.
  destruct (parseSemverTuple current) as [cur |] eqn:Hcur.
  - destruct (getUpgradeOptions_parsed current cur allVersions latestTag Hcur)
      as (st & _ & (Hp & Hmi & Hma) & ->).
    eexists. split; [reflexivity |]. cbn [patch minor major].
    pose proof (surfaced_tier_field in_patch_tier current cur allVersions latestTag _
                  Hcur (in_patch_tier_lt cur) Hp) as Fp.
    pose proof (surfaced_tier_field in_minor_tier current cur allVersions latestTag _
                  Hcur (in_minor_tier_lt cur) Hmi) as Fmi.
    pose proof (surfaced_tier_field in_major_tier current cur allVersions latestTag _
                  Hcur (in_major_tier_lt cur) Hma) as Fma.
    assert (Hclash : forall tier1 tier2 f1 f2 v,
               tier_field tier1 current allVersions latestTag f1 ->
               tier_field tier2 current allVersions latestTag f2 ->
               (forall t, tier1 cur t && tier2 cur t = false) ->
               f1 = Some v -> f2 <> Some v).
    { intros tier1 tier2 f1 f2 v F1 F2 Hex -> ->. simpl in F1, F2.
      destruct F1 as (c1 & t1 & Hc1 & Ht1 & Hin1 & _).
      destruct F2 as (c2 & t2 & Hc2 & Ht2 & Hin2 & _).
      assert (c1 = cur) as -> by congruence. assert (c2 = cur) as -> by congruence.
      assert (t2 = t1) as -> by congruence.
      specialize (Hex t1). rewrite Hin1, Hin2 in Hex. discriminate. }
    split.
    + intros v Hv. split.
      * eapply (Hclash in_patch_tier in_minor_tier); eauto.
        intros t. apply tier_tests_exclusive.
      * eapply (Hclash in_patch_tier in_major_tier); eauto.
        intros t. apply tier_tests_exclusive.
    + intros v Hv. eapply (Hclash in_minor_tier in_major_tier); eauto.
      intros t. apply tier_tests_exclusive.
  - unfold getUpgradeOptions. rewrite Hcur. eexists. split; [reflexivity |].
    simpl. split; intros v [=].
Qed.

(** Versions without a tuple and versions with a prerelease marker can be
    dropped from the candidates without changing the result. *)
Lemma scan_step_not_candidate cur st ver :
  is_candidate ver = false -> scan_step cur st ver = Some st.
Proof.
  unfold is_candidate, scan_step.
  destruct (parseSemverTuple ver); [| reflexivity].
  destruct (includes "-" ver); [reflexivity | discriminate].
Qed.

Lemma scan_only_candidates cur allVersions : forall st,
  scan cur st allVersions = scan cur st (List.filter is_candidate allVersions).
Proof.
  induction allVersions as [| ver rest IH]; intros st; simpl; [reflexivity |].
  destruct (is_candidate ver) eqn:Hc; simpl.
  - destruct (scan_step cur st ver); [apply IH | reflexivity].
  - rewrite scan_step_not_candidate by assumption. apply IH.
Qed.

Theorem getUpgradeOptions_only_candidates current allVersions latestTag :
  getUpgradeOptions current allVersions latestTag
  = getUpgradeOptions current (List.filter is_candidate allVersions) latestTag.
Proof.
  unfold getUpgradeOptions.
  destruct (parseSemverTuple current) as [cur |]; [| reflexivity].
  now rewrite <- scan_only_candidates.
Qed.

Lemma tuple_le_antisym t1 t2 : tuple_le t1 t2 -> tuple_le t2 t1 -> t1 = t2.
Proof.
  intros [H12 | ->] [H21 | H]; auto.
  exfalso. exact (tuple_lt_irrefl t1 (tuple_lt_trans _ _ _ H12 H21)).
Qed.

(** The maximum kept bounds every candidate of the tier. *)
Lemma first_max_bounds tier cur seen v :
  first_max tier cur seen (Some v) ->
  exists tv,
    eligible tier cur v tv /\ In v seen /\
    forall w tw, In w seen -> eligible tier cur w tw -> tuple_le tw tv.
Proof.
  intros (tv & l1 & l2 & -> & Hel & H1 & H2). exists tv.
  split; [assumption |]. split; [apply in_or_app; right; now left |].
  intros w tw Hin Hw. apply in_app_or in Hin as [Hin | [<- | Hin]].
  - left. eauto.
  - right. destruct Hw as [Hp _], Hel as [Hp' _]. congruence.
  - eauto.
Qed.

Lemma first_max_order_independent tier cur l l' m m' :
  l ≡ₚ l' ->
  (forall w w' t, In w l -> In w' l ->
                  includes "-" w = false -> includes "-" w' = false ->
                  parseSemverTuple w = Some t -> parseSemverTuple w' = Some t ->
                  w = w') ->
  first_max tier cur l m -> first_max tier cur l' m' -> m = m'.
Proof.
  intros Hperm Hinj Hm Hm'.
  destruct m as [v |], m' as [v' |]; [| | | reflexivity].
  - destruct (first_max_bounds _ _ _ _ Hm) as (tv & Hel & Hin & Hub).
    destruct (first_max_bounds _ _ _ _ Hm') as (tv' & Hel' & Hin' & Hub').
    assert (Hin2 : In v' l) by (eapply Permutation_in; [symmetry |]; eauto).
    assert (Hin3 : In v l') by (eapply Permutation_in; eauto).
    assert (tv = tv') as ->
        by (apply tuple_le_antisym; [eapply Hub' | eapply Hub]; eauto).
    f_equal. destruct Hel as (Hp & Hd & _), Hel' as (Hp' & Hd' & _).
    eapply Hinj; eauto.
  - destruct (first_max_bounds _ _ _ _ Hm) as (tv & Hel & Hin & _).
    exfalso. eapply (Hm' v tv); [eapply Permutation_in; eauto | assumption].
  - destruct (first_max_bounds _ _ _ _ Hm') as (tv' & Hel' & Hin' & _).
    exfalso. eapply (Hm v' tv'); [eapply Permutation_in; [symmetry |]; eauto | assumption].
Qed.

(** When no two candidates without prerelease marker share a tuple, the
    result does not depend on the order of the candidates. *)
Theorem getUpgradeOptions_order_independent current allVersions allVersions' latestTag :
  allVersions ≡ₚ allVersions' ->
  (forall w w' t, In w allVersions -> In w' allVersions ->
                  includes "-" w = false -> includes "-" w' = false ->
                  parseSemverTuple w = Some t -> parseSemverTuple w' = Some t ->
                  w = w') ->
  getUpgradeOptions current allVersions latestTag
  = getUpgradeOptions current allVersions' latestTag.
Proof.
  intros Hperm Hinj.
  destruct (parseSemverTuple current) as [cur |] eqn:Hcur.
  - destruct (getUpgradeOptions_parsed current cur allVersions latestTag Hcur)
      as (st & _ & (Hp & Hmi & Hma) & ->).
    destruct (getUpgradeOptions_parsed current cur allVersions' latestTag Hcur)
      as (st' & _ & (Hp' & Hmi' & Hma') & ->).
    rewrite (first_max_order_independent _ _ _ _ _ _ Hperm Hinj Hp Hp').
    rewrite (first_max_order_independent _ _ _ _ _ _ Hperm Hinj Hmi Hmi').
    rewrite (first_max_order_independent _ _ _ _ _ _ Hperm Hinj Hma Hma').
    reflexivity.
  - unfold getUpgradeOptions. now rewrite Hcur.
Qed.

Lemma getUpgradeOptions_order_independent_witness :
  getUpgradeOptions "1.2.3" ["1.2.4"; "2.0.0"; "1.2.4-rc.1"] "2.0.0"
  = getUpgradeOptions "1.2.3" ["2.0.0"; "1.2.4"; "1.2.4-rc.1"] "2.0.0".
Proof.
  apply (getUpgradeOptions_order_independent "1.2.3"
           ["1.2.4"; "2.0.0"; "1.2.4-rc.1"] ["2.0.0"; "1.2.4"; "1.2.4-rc.1"] "2.0.0").
  - apply perm_swap.
  - intros w w' t Hw Hw' Hd Hd' Hp Hp'. simpl in Hw, Hw'.
    destruct Hw as [<- | [<- | [<- | []]]];
      destruct Hw' as [<- | [<- | [<- | []]]];
      try reflexivity;
      vm_compute in Hd, Hd', Hp, Hp'; congruence.
Defined.

Lemma surfaced_dominates tier cur allVersions latestTag m w tw :
  first_max tier cur allVersions m ->
  In w allVersions -> eligible tier cur w tw ->
  exists v tv,
    In v allVersions /\ parseSemverTuple v = Some tv /\ tuple_le tw tv /\
    (surfaced m latestTag = Some v \/ (surfaced m latestTag = None /\ v = latestTag)).
Proof.
  intros Hm Hin Hw. destruct m as [v |]; [| exfalso; exact (Hm w tw Hin Hw)].
  destruct (first_max_bounds _ _ _ _ Hm) as (tv & (Hp & Hd & Ht) & Hv & Hub).
  exists v, tv. split; [assumption |]. split; [assumption |].
  split; [eauto |]. simpl.
  assert (Hne : (v =? "")%string = false).
  { apply String.eqb_neq. eapply parseSemverTuple_nonempty; eauto. }
  rewrite Hne. simpl.
  destruct (String.eqb_spec v latestTag) as [-> | Hvl]; simpl; auto.
Qed.

(** Nothing better is left out: when the latest tag differs from the
    current version, every candidate of a tier is bounded by the
    version the tier's field names, or, when the field is absent, by
    the latest tag, which is then the tier's best candidate. *)
Theorem tier_field_dominates current cur allVersions latestTag w tw :
  parseSemverTuple current = Some cur ->
  latestTag <> current ->
  In w allVersions -> parseSemverTuple w = Some tw -> includes "-" w = false ->
  exists r,
    getUpgradeOptions current allVersions latestTag = Some r /\
    (in_patch_tier cur tw = true ->
     exists v tv, In v allVersions /\ parseSemverTuple v = Some tv /\ tuple_le tw tv /\
                  (patch r = Some v \/ (patch r = None /\ v = latestTag))) /\
    (in_minor_tier cur tw = true ->
     exists v tv, In v allVersions /\ parseSemverTuple v = Some tv /\ tuple_le tw tv /\
                  (minor r = Some v \/ (minor r = None /\ v = latestTag))) /\
    (in_major_tier cur tw = true ->
     exists v tv, In v allVersions /\ parseSemverTuple v = Some tv /\ tuple_le tw tv /\
                  (major r = Some v \/ (major r = None /\ v = latestTag))).
Proof.
  intros Hcur Hne Hin Hp Hd.
  destruct (getUpgradeOptions_parsed current cur allVersions latestTag Hcur)
    as (st & _ & (Hpa & Hmi & Hma) & ->).
  eexists. split; [reflexivity |]. cbn [patch minor major].
  destruct (String.eqb_spec latestTag current) as [? | _]; [contradiction |]. simpl.
  repeat split; intros Ht; eapply surfaced_dominates; eauto; repeat split; assumption.
Qed.

Lemma tier_field_dominates_witness :
  exists r,
    getUpgradeOptions "1.2.3" ["1.2.4"; "1.3.0"; "2.0.0"; "2.1.0"] "2.1.0" = Some r /\
    (in_patch_tier (Fin 1, Fin 2, Fin 3) (Fin 2, Fin 0, Fin 0) = true ->
     exists v tv, In v ["1.2.4"; "1.3.0"; "2.0.0"; "2.1.0"] /\
                  parseSemverTuple v = Some tv /\ tuple_le (Fin 2, Fin 0, Fin 0) tv /\
                  (patch r = Some v \/ (patch r = None /\ v = "2.1.0"))) /\
    (in_minor_tier (Fin 1, Fin 2, Fin 3) (Fin 2, Fin 0, Fin 0) = true ->
     exists v tv, In v ["1.2.4"; "1.3.0"; "2.0.0"; "2.1.0"] /\
                  parseSemverTuple v = Some tv /\ tuple_le (Fin 2, Fin 0, Fin 0) tv /\
                  (minor r = Some v \/ (minor r = None /\ v = "2.1.0"))) /\
    (in_major_tier (Fin 1, Fin 2, Fin 3) (Fin 2, Fin 0, Fin 0) = true ->
     exists v tv, In v ["1.2.4"; "1.3.0"; "2.0.0"; "2.1.0"] /\
                  parseSemverTuple v = Some tv /\ tuple_le (Fin 2, Fin 0, Fin 0) tv /\
                  (major r = Some v \/ (major r = None /\ v = "2.1.0"))).
Proof.
  apply (tier_field_dominates "1.2.3" (Fin 1, Fin 2, Fin 3)
           ["1.2.4"; "1.3.0"; "2.0.0"; "2.1.0"] "2.1.0" "2.0.0" (Fin 2, Fin 0, Fin 0)).
  - reflexivity.
  - discriminate.
  - simpl. auto.
  - reflexivity.
  - reflexivity.
Defined.

End ClassifierFurther.

(** ** Normalisation of a packument: what the entries hold *)

Section NormalisationFurther.

Import Package.

(** The loop over [dist-tags] touches nothing but the [tag] of the
    entries, and leaves on each the tag of the last entry of [dist-tags]
    that points at it. *)
Lemma attach_tags_entry tags :
  forall g g' (rv rv' : gmap string ResolvedPackumentVersion) v r',
  attach_tags tags g rv = (Returned rv', g') ->
  rv' !! v = Some r' ->
  exists r,
    rv !! v = Some r /\
    version r' = version r /\
    hasProvenance r' = hasProvenance r /\
    deprecated r' = deprecated r /\
    tag r' = match last_tag_for v tags with Some t => Some t | None => tag r end.
Proof.
  induction tags as [| [t v0] rest IH]; intros g g' rv rv' v r'; simpl.
  - intros [= -> _] Hv. eauto 6.
  - pose proof (get_property_cases g rv v0) as Hc.
    destruct (get_property g rv v0) as [r0 | name | | s |]; try discriminate;
      intros Hrest Hv;
      destruct (IH _ _ _ _ _ _ Hrest Hv) as (r1 & Hr1 & Hver & Hprov & Hdep & Htag).
    + destruct (String.eqb_spec v0 v) as [-> | Hne].
      * rewrite lookup_insert_eq in Hr1. injection Hr1 as <-.
        exists r0. simpl in *. repeat split; try assumption.
        rewrite Htag. now destruct (last_tag_for v rest).
      * rewrite lookup_insert_ne in Hr1 by assumption.
        exists r1. repeat split; try assumption.
        rewrite Htag. now destruct (last_tag_for v rest).
    + destruct Hc as (Hn & _). exists r1. repeat split; try assumption.
      destruct (String.eqb_spec v0 v) as [-> | Hne]; [congruence |].
      rewrite Htag. now destruct (last_tag_for v rest).
    + destruct Hc as (Hn & _). exists r1. repeat split; try assumption.
      destruct (String.eqb_spec v0 v) as [-> | Hne]; [congruence |].
      rewrite Htag. now destruct (last_tag_for v rest).
Qed.

(** What the loop leaves on [Object.prototype]: the tag of the last entry
    that points at [__proto__], unless the map has a key of that name. *)
Lemma attach_tags_proto_tag tags :
  forall g g' (rv rv' : gmap string ResolvedPackumentVersion),
  attach_tags tags g rv = (Returned rv', g') ->
  proto_tag g'
  = match rv !! "__proto__" with
    | Some _ => proto_tag g
    | None => match last_tag_for "__proto__" tags with
              | Some t => Some t
              | None => proto_tag g
              end
    end.
Proof.
  induction tags as [| [t v0] rest IH]; intros g g' rv rv'; simpl.
  - intros [= _ ->]. now destruct (rv !! "__proto__").
  - pose proof (get_property_cases g rv v0) as Hc.
    destruct (get_property g rv v0) as [r0 | name | | s |]; try discriminate;
      intros Hrest; rewrite (IH _ _ _ _ Hrest).
    + destruct (String.eqb_spec v0 "__proto__") as [-> | Hne].
      * rewrite lookup_insert_eq, Hc. reflexivity.
      * rewrite lookup_insert_ne by assumption.
        destruct (rv !! "__proto__"); [reflexivity |].
        now destruct (last_tag_for "__proto__" rest).
    + destruct Hc as (_ & _ & _ & Hne). cbn [proto_tag].
      destruct (String.eqb_spec v0 "__proto__") as [? | _]; [contradiction |].
      destruct (rv !! "__proto__"); [reflexivity |].
      now destruct (last_tag_for "__proto__" rest).
    + destruct Hc as (Hn & _ & ->). rewrite Hn. cbn [proto_tag].
      rewrite String.eqb_refl. now destruct (last_tag_for "__proto__" rest).
Qed.

Lemma normalize_entry g g' pkg rp v r :
  normalize g pkg = (Returned rp, g') ->
  versions rp !! v = Some r ->
  exists pv,
    pkg_versions pkg !! v = Some pv /\
    has_time g pkg v = true /\
    version r = v /\
    hasProvenance r = match attestations (dist pv) with Some _ => true | None => false end /\
    deprecated r = pv_deprecated pv /\
    tag r = last_tag_for v (pkg_dist_tags pkg) /\
    proto_tag g'
    = match resolvedVersions g pkg !! "__proto__" with
      | Some _ => proto_tag g
      | None => match last_tag_for "__proto__" (pkg_dist_tags pkg) with
                | Some t => Some t
                | None => proto_tag g
                end
      end.
Proof.
  unfold normalize.
  destruct (attach_tags (pkg_dist_tags pkg) g (resolvedVersions g pkg))
    as [[rv |] g1] eqn:Ha; [| discriminate].
  intros [= <- <-] Hv. simpl in Hv.
  destruct (attach_tags_entry _ _ _ _ _ _ _ Ha Hv)
    as (r0 & Hr0 & Hver & Hprov & Hdep & Htag).
  pose proof (attach_tags_proto_tag _ _ _ _ _ Ha) as Hproto.
  rewrite resolvedVersions_lookup in Hr0.
  destruct (pkg_versions pkg !! v) as [pv |]; [| discriminate].
  destruct (has_time g pkg v); [| discriminate].
  injection Hr0 as <-. exists pv. simpl in *.
  repeat split; try assumption.
  rewrite Htag. now destruct (last_tag_for v (pkg_dist_tags pkg)).
Qed.

(** Every entry of a returned [ResolvedPackument] comes from a version of
    the packument for which [pkg.time[v]] is truthy, own or inherited; it
    is filed under its own version string, and carries that version's
    provenance flag and deprecation message. *)
Theorem normalize_entries_come_from_packument g g' pkg rp v r :
  normalize g pkg = (Returned rp, g') ->
  versions rp !! v = Some r ->
  exists pv,
    pkg_versions pkg !! v = Some pv /\
    has_time g pkg v = true /\
    version r = v /\
    hasProvenance r = match attestations (dist pv) with Some _ => true | None => false end /\
    deprecated r = pv_deprecated pv.
Proof.
  intros Hn Hv. destruct (normalize_entry g g' pkg rp v r Hn Hv) as (pv & H).
  exists pv. tauto.
Qed.

(** The own tag of an entry is the name of the last distribution tag that
    points at its version, and is absent when none does: of two tags on
    one version, only the later is kept.  An entry without own tag reads
    the [tag] of [Object.prototype], which the loop itself sets when a tag
    points at [__proto__] and no kept version has that name. *)
Theorem normalize_keeps_last_tag g g' pkg rp v r :
  normalize g pkg = (Returned rp, g') ->
  versions rp !! v = Some r ->
  tag r = last_tag_for v (pkg_dist_tags pkg) /\
  read_tag g' r
  = match last_tag_for v (pkg_dist_tags pkg) with
    | Some t => Some t
    | None =>
        match resolvedVersions g pkg !! "__proto__" with
        | Some _ => proto_tag g
        | None => match last_tag_for "__proto__" (pkg_dist_tags pkg) with
                  | Some t => Some t
                  | None => proto_tag g
                  end
        end
    end.
Proof.
  intros Hn Hv.
  destruct (normalize_entry g g' pkg rp v r Hn Hv) as (pv & _ & _ & _ & _ & _ & Htag & Hp).
  split; [assumption |]. unfold read_tag. rewrite Htag, Hp.
  now destruct (last_tag_for v (pkg_dist_tags pkg)).
Qed.

End NormalisationFurther.

Lemma normalize_entries_come_from_packument_witness :
  exists pv,
    ({[ "valueOf" := Package.mkPackumentVersion (Package.mkDist (Some tt)) (Some "old") ]}
       : gmap string Package.PackumentVersion) !! "valueOf" = Some pv /\
    Package.has_time Package.initial_realm
      {| Package.pkg_versions :=
           {[ "valueOf" := Package.mkPackumentVersion (Package.mkDist (Some tt)) (Some "old") ]};
         Package.pkg_time := ∅;
         Package.pkg_dist_tags := [("latest", "valueOf"); ("next", "valueOf")] |}
      "valueOf" = true /\
    "valueOf" = "valueOf" /\
    true = match Package.attestations (Package.dist pv) with Some _ => true | None => false end /\
    Some "old" = Package.pv_deprecated pv.
Proof.
  refine (normalize_entries_come_from_packument
           Package.initial_realm Package.initial_realm
           {| Package.pkg_versions :=
                {[ "valueOf" := Package.mkPackumentVersion (Package.mkDist (Some tt)) (Some "old") ]};
              Package.pkg_time := ∅;
              Package.pkg_dist_tags := [("latest", "valueOf"); ("next", "valueOf")] |}
           {| Package.versions :=
                {[ "valueOf" := Package.mkResolvedVersion "valueOf" (Some "next") true (Some "old") ]} |}
           "valueOf"
           (Package.mkResolvedVersion "valueOf" (Some "next") true (Some "old")) _ _);
    vm_compute; reflexivity.
Defined.

Lemma normalize_keeps_last_tag_witness :
  None = Package.last_tag_for "1.0.0" [("latest", "2.0.0"); ("next", "__proto__")] /\
  Package.read_tag (Package.mkRealm (Some "next") ∅)
    (Package.mkResolvedVersion "1.0.0" None false None)
  = match Package.last_tag_for "1.0.0" [("latest", "2.0.0"); ("next", "__proto__")] with
    | Some t => Some t
    | None =>
        match Package.resolvedVersions Package.initial_realm
                {| Package.pkg_versions :=
                     {[ "1.0.0" := Package.mkPackumentVersion (Package.mkDist None) None;
                        "2.0.0" := Package.mkPackumentVersion (Package.mkDist None) None ]};
                   Package.pkg_time := {[ "1.0.0" := "2024-01-01T00:00:00.000Z";
                                          "2.0.0" := "2024-02-01T00:00:00.000Z" ]};
                   Package.pkg_dist_tags := [("latest", "2.0.0"); ("next", "__proto__")] |}
                !! "__proto__" with
        | Some _ => Package.proto_tag Package.initial_realm
        | None => match Package.last_tag_for "__proto__"
                          [("latest", "2.0.0"); ("next", "__proto__")] with
                  | Some t => Some t
                  | None => Package.proto_tag Package.initial_realm
                  end
        end
    end.
Proof.
  refine (normalize_keeps_last_tag
           Package.initial_realm (Package.mkRealm (Some "next") ∅)
           {| Package.pkg_versions :=
                {[ "1.0.0" := Package.mkPackumentVersion (Package.mkDist None) None;
                   "2.0.0" := Package.mkPackumentVersion (Package.mkDist None) None ]};
              Package.pkg_time := {[ "1.0.0" := "2024-01-01T00:00:00.000Z";
                                     "2.0.0" := "2024-02-01T00:00:00.000Z" ]};
              Package.pkg_dist_tags := [("latest", "2.0.0"); ("next", "__proto__")] |}
           {| Package.versions :=
                {[ "1.0.0" := Package.mkResolvedVersion "1.0.0" None false None;
                   "2.0.0" := Package.mkResolvedVersion "2.0.0" (Some "latest") false None ]} |}
           "1.0.0"
           (Package.mkResolvedVersion "1.0.0" None false None) _ _);
    vm_compute; reflexivity.
Defined.

(** ** providers: the upgrade items of a dependency *)

Section ItemsFacts.

Import Providers.

Variable ParsedVersion : Type.
Variable semver : ParsedVersion -> string.
Variable with_semver : ParsedVersion -> string -> ParsedVersion.
Variable formatVersion : ParsedVersion -> string.

Local Abbreviation item_for := (item_for ParsedVersion semver with_semver formatVersion).
Local Abbreviation collect_items := (collect_items ParsedVersion semver with_semver formatVersion).
Local Abbreviation upgrade_items := (upgrade_items ParsedVersion semver with_semver formatVersion).

(** What [getUpgradeOptions] returns, field by field. *)
Lemma getUpgradeOptions_fields current allVersions latestTag :
  exists r,
    getUpgradeOptions current allVersions latestTag = Some r /\
    latest r = latestTag /\
    tier_field in_patch_tier current allVersions latestTag (patch r) /\
    tier_field in_minor_tier current allVersions latestTag (minor r) /\
    tier_field in_major_tier current allVersions latestTag (major r) /\
    (forall v, prerelease r = Some v ->
               v = latestTag /\ includes "-" latestTag = true /\ includes "-" current = false).
Proof.
  destruct (parseSemverTuple current) as [cur |] eqn:Hcur.
  - destruct (getUpgradeOptions_parsed current cur allVersions latestTag Hcur)
      as (st & _ & (Hp & Hmi & Hma) & ->).
    eexists. split; [reflexivity |]. cbn [latest patch minor major prerelease].
    split; [reflexivity |].
    split; [eapply surfaced_tier_field; eauto using in_patch_tier_lt |].
    split; [eapply surfaced_tier_field; eauto using in_minor_tier_lt |].
    split; [eapply surfaced_tier_field; eauto using in_major_tier_lt |].
    intros v. destruct (includes "-" latestTag), (includes "-" current); simpl;
      intros [=]; auto.
  - unfold getUpgradeOptions. rewrite Hcur. eexists. split; [reflexivity |].
    simpl. split; [reflexivity |]. do 3 (split; [exact I |]). intros v [=].
Qed.

(** A tier never names the current version: its tuple is strictly greater. *)
Lemma tier_field_not_current tier current allVersions latestTag v :
  tier_field tier current allVersions latestTag (Some v) -> v <> current.
Proof.
  intros (cur & tv & Hcur & Hv & _ & Hlt & _) ->.
  assert (tv = cur) as -> by congruence. exact (tuple_lt_irrefl cur Hlt).
Qed.

Lemma item_for_type parsed o ty it : item_for parsed o ty = Some it -> type it = ty.
Proof.
  unfold Providers.item_for. destruct (target_of _ semver parsed o ty) as [tv |]; [| discriminate].
  destruct (truthy (Some tv)); [| discriminate]. now intros [= <-].
Qed.

Lemma omap_sublist {A B : Type} (f : A -> option B) (g : B -> A) (l : list A) :
  (forall x y, f x = Some y -> g y = x) -> sublist (g <$> omap f l) l.
Proof.
  intros Hfg. induction l as [| x l IH]; simpl; [constructor |].
  destruct (f x) as [y |] eqn:Hy; simpl.
  - rewrite (Hfg x y Hy). now apply sublist_skip.
  - now apply sublist_cons.
Qed.

(** The items come in the order latest, major, minor, patch, pre, with at
    most one item of each type. *)
Theorem items_follow_upgradeOrder parsed o :
  sublist (type <$> collect_items parsed o) upgradeOrder.
Proof. apply omap_sublist. intros ty it. apply item_for_type. Qed.

(** With a non-empty latest tag, there is nothing to show exactly when
    the declared version is the latest tag; otherwise the first item,
    the one the inline decoration displays, is the latest tag's. *)
Theorem items_start_with_latest parsed allVersions latestTag :
  latestTag <> "" ->
  exists items,
    upgrade_items parsed allVersions latestTag = Some items /\
    (items = [] <-> latestTag = semver parsed) /\
    (forall it, head items = Some it -> type it = Latest /\ targetVersion it = latestTag).
Proof.
  intros Hne.
  destruct (getUpgradeOptions_fields (semver parsed) allVersions latestTag)
    as (r & Hr & Hlatest & Fp & Fmi & Fma & Fpre).
  unfold Providers.upgrade_items. rewrite Hr. eexists. split; [reflexivity |].
  unfold Providers.collect_items, upgradeOrder. cbn [omap list_omap].
  assert (Htruthy : truthy (Some latestTag) = true).
  { simpl. apply negb_true_iff. now apply String.eqb_neq. }
  destruct (String.eqb_spec latestTag (semver parsed)) as [Heq | Hneq].
  - assert (major r = None) as Hma.
    { destruct (major r); [| reflexivity]. simpl in Fma.
      destruct Fma as (? & ? & ? & ? & ? & ? & ? & ? & ? & Hc). contradiction. }
    assert (minor r = None) as Hmi.
    { destruct (minor r); [| reflexivity]. simpl in Fmi.
      destruct Fmi as (? & ? & ? & ? & ? & ? & ? & ? & ? & Hc). contradiction. }
    assert (patch r = None) as Hp.
    { destruct (patch r); [| reflexivity]. simpl in Fp.
      destruct Fp as (? & ? & ? & ? & ? & ? & ? & ? & ? & Hc). contradiction. }
    assert (prerelease r = None) as Hpre.
    { destruct (prerelease r) as [v |] eqn:E; [| reflexivity].
      destruct (Fpre v eq_refl) as (_ & H1 & H2). congruence. }
    unfold Providers.item_for, target_of, option_of.
    rewrite Hlatest, Hma, Hmi, Hp, Hpre.
    destruct (String.eqb_spec latestTag (semver parsed)); [| contradiction]. simpl.
    split; [tauto |]. intros it [=].
  - assert (Hfirst : item_for parsed r Latest
                     = Some (mkItem Latest latestTag
                               (formatVersion (with_semver parsed latestTag)))).
    { unfold Providers.item_for, target_of. rewrite Hlatest.
      destruct (String.eqb_spec latestTag (semver parsed)); [contradiction |].
      cbn [negb]. cbv iota. now rewrite Htruthy. }
    rewrite Hfirst.
    split; [split; [discriminate | contradiction] |].
    intros it [= <-]. auto.
Qed.

(** No item proposes the declared version itself, and none has an empty
    target: every item is a real change of the version. *)
Theorem items_never_target_current parsed allVersions latestTag :
  exists items,
    upgrade_items parsed allVersions latestTag = Some items /\
    forall it, it ∈ items ->
      targetVersion it <> semver parsed /\
      targetVersion it <> "" /\
      newVersion it = formatVersion (with_semver parsed (targetVersion it)).
Proof.
  destruct (getUpgradeOptions_fields (semver parsed) allVersions latestTag)
    as (r & Hr & Hlatest & Fp & Fmi & Fma & Fpre).
  unfold Providers.upgrade_items. rewrite Hr. eexists. split; [reflexivity |].
  intros it Hin. apply list_elem_of_omap in Hin as (ty & _ & Hit).
  unfold Providers.item_for in Hit.
  destruct (target_of _ semver parsed r ty) as [tv |] eqn:Htv; [| discriminate].
  destruct (truthy (Some tv)) eqn:Htr; [| discriminate].
  injection Hit as <-. cbn [targetVersion newVersion].
  split; [| split; [| reflexivity]].
  - destruct ty; simpl in Htv.
    + destruct (String.eqb_spec (latest r) (semver parsed)) as [| Hneq]; [discriminate |].
      injection Htv as <-. assumption.
    + rewrite Htv in Fma. eapply tier_field_not_current; eauto.
    + rewrite Htv in Fmi. eapply tier_field_not_current; eauto.
    + rewrite Htv in Fp. eapply tier_field_not_current; eauto.
    + destruct (Fpre tv Htv) as (-> & H1 & H2). intros Heq. congruence.
  - simpl in Htr. apply negb_true_iff in Htr. now apply String.eqb_neq in Htr.
Qed.

End ItemsFacts.

Lemma items_start_with_latest_witness :
  exists items,
    Providers.upgrade_items string id (fun _ s => s) id
      "1.2.3" ["1.2.4"; "2.0.0"] "2.0.0" = Some items /\
    (items = [] <-> "2.0.0" = id "1.2.3") /\
    (forall it, head items = Some it ->
                Providers.type it = Providers.Latest /\ Providers.targetVersion it = "2.0.0").
Proof.
  apply (items_start_with_latest string id (fun _ s => s) id "1.2.3" ["1.2.4"; "2.0.0"] "2.0.0").
  discriminate.
Defined.
